(** * infoclash: the write-behind cache pipeline and the merge/archive engine

    A shallow embedding of the Go backend of infoclash:
    - [collector.go]  : the snapshot normaliser inside [GetClashConnections];
    - [main.go]       : the live cache ([sync.Map]) and [writeCacheToDB];
    - [database.go]   : [BulkUpsertConnections];
    - [handlers.go]   : [mergeAndArchiveConnections], [replaceHostHandler],
                        [mergeConnectionsHandler] and [getConnectionsHandler];
    - [config.go]     : [LoadConfig] and [getValue].

    Go strings are byte sequences and are modelled by [string]; [uint64]
    counters are integers in [Z] with the wrap-around of Go's [+=] written
    out; the SQLite tables are lists of rows in rowid order; the live cache
    is a finite map keyed by connection id. *)

From Stdlib Require Import ZArith String Ascii List Bool Lia.
From stdpp Require Import base tactics option list gmap strings.

Local Open Scope string_scope.
Local Open Scope list_scope.

(* ===================================================================== *)
(** * Go strings                                                          *)
(* ===================================================================== *)

(** [s[n:]] for [n <= len(s)]. *)
Fixpoint string_drop (n : nat) (s : string) : string :=
  match n, s with
  | O, _ => s
  | S n', String _ s' => string_drop n' s'
  | S _, EmptyString => EmptyString
  end.

(** [strings.HasSuffix]:
    [len(s) >= len(suffix) && s[len(s)-len(suffix):] == suffix]. *)
Definition HasSuffix (s suffix : string) : bool :=
  (String.length suffix <=? String.length s)%nat
  && String.eqb (string_drop (String.length s - String.length suffix) s) suffix.

(* ===================================================================== *)
(** * models.go                                                           *)
(* ===================================================================== *)

(** [Metadata]: the fields the backend reads.  The remaining fields of the
    Go struct (network, type, ports, destinationIP, dnsMode, processPath)
    are decoded from JSON and never looked at again. *)
Record Metadata := mkMetadata {
  SourceIP : string;
  Host : string;
  RemoteDestination : string
}.

(** [Connection].  [Upload] and [Download] are [uint64]; [Start] is kept
    as Unix seconds, the only view the backend takes of it ([Start.Unix()]
    when writing, [time.Unix(start, 0)] when reading back). *)
Record Connection := mkConnection {
  ID : string;
  Meta : Metadata;
  Upload : Z;
  Download : Z;
  Start : Z;
  Chains : list string
}.

Definition setHost (c : Connection) (h : string) : Connection :=
  {| ID := ID c;
     Meta := {| SourceIP := SourceIP (Meta c); Host := h;
                RemoteDestination := RemoteDestination (Meta c) |};
     Upload := Upload c; Download := Download c; Start := Start c;
     Chains := Chains c |}.

Definition two64 : Z := 18446744073709551616%Z.
Definition two63 : Z := 9223372036854775808%Z.

(** Go's [a += b] on [uint64]. *)
Definition add64 (a b : Z) : Z := ((a + b) mod two64)%Z.

Definition is_uint64 (v : Z) : Prop := (0 <= v < two64)%Z.

(* ===================================================================== *)
(** * collector.go: the data-cleaning loop of GetClashConnections         *)
(* ===================================================================== *)

(** Step 1: [if conn.Metadata.Host == "" { Host = RemoteDestination }]. *)
Definition fillHost (c : Connection) : Connection :=
  if String.eqb (Host (Meta c)) "" then setHost c (RemoteDestination (Meta c))
  else c.

(** Step 2: [for _, suffix := range hostSuffixWhitelist], with its
    [break] at the first suffix that matches. *)
Fixpoint applyWhitelist (host : string) (hostSuffixWhitelist : list string) : string :=
  match hostSuffixWhitelist with
  | [] => host
  | suffix :: rest =>
      if HasSuffix host suffix then suffix else applyWhitelist host rest
  end.

Definition collapseHost (hostSuffixWhitelist : list string) (c : Connection) : Connection :=
  setHost c (applyWhitelist (Host (Meta c)) hostSuffixWhitelist).

(** The body of the loop over [connections.Connections]. *)
Definition cleanConnection (hostSuffixWhitelist : list string) (c : Connection) : Connection :=
  collapseHost hostSuffixWhitelist (fillHost c).

Definition cleanConnections (hostSuffixWhitelist : list string)
    (conns : list Connection) : list Connection :=
  List.map (cleanConnection hostSuffixWhitelist) conns.

(** [GetClashConnections]: [response] is what the HTTP round trip and the
    JSON decoding produced, [None] standing for any of the four error
    returns that precede the cleaning loop. *)
Definition GetClashConnections (response : option (list Connection))
    (hostSuffixWhitelist : list string) : option (list Connection) :=
  match response with
  | None => None
  | Some conns => Some (cleanConnections hostSuffixWhitelist conns)
  end.

(** The normaliser in the words of the design: fallback fill, then the
    first allow-list entry the host ends with replaces the host. *)
Definition spec_host (hostSuffixWhitelist : list string) (c : Connection) : string :=
  let filled :=
    if decide (Host (Meta c) = "") then RemoteDestination (Meta c)
    else Host (Meta c) in
  match List.find (HasSuffix filled) hostSuffixWhitelist with
  | Some suffix => suffix
  | None => filled
  end.

(* ===================================================================== *)
(** * database.go: the connections table and BulkUpsertConnections       *)
(* ===================================================================== *)

(** A row of [connections] (and, with [archived_at], of
    [connections_archive]).  [sourceIP] and [host] are scanned into plain
    Go strings and every writer binds a Go string for them; [chain] is
    scanned through [sql.NullString], so it keeps its NULL. *)
Record Row := mkRow {
  r_id : string;
  r_sourceIP : string;
  r_host : string;
  r_upload : Z;
  r_download : Z;
  r_start : Z;
  r_chain : option string
}.

(** The table in rowid order; [id] is its PRIMARY KEY. *)
Definition Table := list Row.

Record ArchiveRow := mkArchiveRow {
  a_row : Row;
  archived_at : Z
}.

Definition hasId (id : string) (r : Row) : bool := String.eqb (r_id r) id.

Definition findRow (id : string) (db : Table) : option Row :=
  List.find (hasId id) db.

Definition ids (db : Table) : list string := List.map r_id db.

(** The places where a database call can fail for a reason outside the
    program (lock, I/O, full disk).  A fault plan says which calls do. *)
Inductive Site :=
  | SBegin | SPrepare | SExec (n : nat) | SCommit
  | MQuery | MBegin | MArchiveBegin | MPrepareArchive | MPrepareDelete
  | MArchiveExec (n : nat) | MDeleteExec (n : nat)
  | MPrepareInsert | MInsertExec (n : nat) | MCommit | MArchiveCommit
  | RExec.

Definition Faults := Site -> bool.

Definition noFaults : Faults := fun _ => false.

Inductive DBError :=
  | ErrBegin | ErrPrepare | ErrExec (id : string) | ErrCommit
  | ErrQuery | ErrArchiveBegin | ErrArchive | ErrDelete | ErrInsert.

(** [database/sql] refuses to bind a [uint64] whose high bit is set. *)
Definition bindable (v : Z) : bool := (v <? two63)%Z.

Definition setCounters (r : Row) (up down : Z) : Row :=
  {| r_id := r_id r; r_sourceIP := r_sourceIP r; r_host := r_host r;
     r_upload := up; r_download := down;
     r_start := r_start r; r_chain := r_chain r |}.

(** [INSERT ... ON CONFLICT(id) DO UPDATE SET upload = excluded.upload,
    download = excluded.download]. *)
Definition upsertRow (new : Row) (db : Table) : Table :=
  if existsb (hasId (r_id new)) db then
    List.map (fun r => if hasId (r_id new) r
                       then setCounters r (r_upload new) (r_download new)
                       else r) db
  else db ++ [new].

(** The seven values bound by [stmt.Exec] in the upsert loop; the chain is
    the last hop, or the empty string. *)
Definition rowOfConnection (c : Connection) : Row :=
  {| r_id := ID c; r_sourceIP := SourceIP (Meta c); r_host := Host (Meta c);
     r_upload := Upload c; r_download := Download c; r_start := Start c;
     r_chain := Some (List.last (Chains c) "") |}.

Definition execUpsert (F : Faults) (n : nat) (c : Connection) (tx : Table)
    : option Table :=
  if F (SExec n) || negb (bindable (Upload c)) || negb (bindable (Download c))
  then None
  else Some (upsertRow (rowOfConnection c) tx).

(** The [for _, conn := range connections] loop; [n] counts the [Exec]
    calls made so far in the transaction. *)
Fixpoint upsertLoop (F : Faults) (n : nat) (conns : list Connection)
    (tx : Table) : DBError + Table :=
  match conns with
  | [] => inr tx
  | c :: rest =>
      if String.eqb (Host (Meta c)) "" then upsertLoop F n rest tx
      else match execUpsert F n c tx with
           | None => inl (ErrExec (ID c))
           | Some tx' => upsertLoop F (S n) rest tx'
           end
  end.

(** [BulkUpsertConnections]: the returned table is the committed state.
    The deferred function rolls back on every error and commits
    otherwise; the result is named, so a commit error is returned. *)
Definition BulkUpsertConnections (F : Faults) (db : Table)
    (connections : list Connection) : option DBError * Table :=
  if F SBegin then (Some ErrBegin, db)
  else if F SPrepare then (Some ErrPrepare, db)
  else match upsertLoop F 0 connections db with
       | inl e => (Some e, db)
       | inr tx => if F SCommit then (Some ErrCommit, db) else (None, tx)
       end.

(* ===================================================================== *)
(** * main.go: the live cache, the poller and writeCacheToDB              *)
(* ===================================================================== *)

(** [connectionsCache], a [sync.Map] from connection id to [Connection]. *)
Abbreviation Cache := (gmap string Connection).

(** [connectionsCache.Store(key, value)]. *)
Definition Store (key : string) (value : Connection) (cache : Cache) : Cache :=
  <[key := value]> cache.

(** The poller's [for _, conn := range connections.Connections]. *)
Definition storeAll (conns : list Connection) (cache : Cache) : Cache :=
  fold_left (fun m conn => Store (ID conn) conn m) conns cache.

(** One tick of the poller goroutine: a failed fetch leaves the cache. *)
Definition pollTick (response : option (list Connection))
    (hostSuffixWhitelist : list string) (cache : Cache) : Cache :=
  match GetClashConnections response hostSuffixWhitelist with
  | None => cache
  | Some conns => storeAll conns cache
  end.

(** [connectionsCache.Range] collecting the values.  The order of
    [map_to_list] stands for Go's unspecified iteration order. *)
Definition Range (cache : Cache) : list Connection :=
  List.map snd (map_to_list cache).

(** The second [Range], which deletes every key it visits. *)
Definition clearCache (cache : Cache) : Cache :=
  fold_right (fun kv m => delete (fst kv) m) cache (map_to_list cache).

Inductive LogEvent :=
  | LogCacheEmpty
  | LogPreparing (n : nat)
  | LogWriteFailed (e : DBError)
  | LogWriteOk.

Record FlushResult := mkFlushResult {
  f_db : Table;
  f_cache : Cache;
  f_log : list LogEvent
}.

(** [writeCacheToDB]. *)
Definition writeCacheToDB (F : Faults) (db : Table) (cache : Cache) : FlushResult :=
  let connsToSave := Range cache in
  if Nat.eqb (List.length connsToSave) 0 then
    mkFlushResult db cache [LogCacheEmpty]
  else
    match BulkUpsertConnections F db connsToSave with
    | (Some e, db') =>
        mkFlushResult db' cache
          [LogPreparing (List.length connsToSave); LogWriteFailed e]
    | (None, db') =>
        mkFlushResult db' (clearCache cache)
          [LogPreparing (List.length connsToSave); LogWriteOk]
    end.

(** ** The flusher and the poller as interleaved goroutines

    [writeCacheToDB] touches the shared cache twice, in the collecting
    [Range] and in the deleting [Range], with the database transaction in
    between.  Each of the three is one step of the flusher; a [Store] of
    the poller may be scheduled before, between or after them. *)
Inductive Phase :=
  | PhCollect
  | PhWrite (connsToSave : list Connection)
  | PhClear
  | PhDone.

Record Sys := mkSys {
  s_cache : Cache;
  s_db : Table;
  s_phase : Phase;
  s_saved : list Connection;
  s_log : list LogEvent
}.

Definition flusherStep (F : Faults) (s : Sys) : Sys :=
  match s_phase s with
  | PhCollect =>
      let connsToSave := Range (s_cache s) in
      if Nat.eqb (List.length connsToSave) 0 then
        mkSys (s_cache s) (s_db s) PhDone [] (s_log s ++ [LogCacheEmpty])
      else
        mkSys (s_cache s) (s_db s) (PhWrite connsToSave) connsToSave
          (s_log s ++ [LogPreparing (List.length connsToSave)])
  | PhWrite connsToSave =>
      match BulkUpsertConnections F (s_db s) connsToSave with
      | (Some e, db') =>
          mkSys (s_cache s) db' PhDone (s_saved s) (s_log s ++ [LogWriteFailed e])
      | (None, db') =>
          mkSys (s_cache s) db' PhClear (s_saved s) (s_log s ++ [LogWriteOk])
      end
  | PhClear =>
      mkSys (clearCache (s_cache s)) (s_db s) PhDone (s_saved s) (s_log s)
  | PhDone => s
  end.

Inductive Action :=
  | ActFlusher
  | ActStore (conn : Connection).

Definition act (F : Faults) (s : Sys) (a : Action) : Sys :=
  match a with
  | ActFlusher => flusherStep F s
  | ActStore conn =>
      mkSys (Store (ID conn) conn (s_cache s)) (s_db s) (s_phase s)
        (s_saved s) (s_log s)
  end.

Definition run (F : Faults) (schedule : list Action) (s : Sys) : Sys :=
  fold_left (act F) schedule s.

Definition startFlush (db : Table) (cache : Cache) : Sys :=
  mkSys cache db PhCollect [] [].

(* ===================================================================== *)
(** * handlers.go: mergeAndArchiveConnections                             *)
(* ===================================================================== *)

(** [rows.Scan] into a [Connection]: converting a negative INTEGER to
    [uint64] fails, and the loop skips such a row with [continue]. *)
Definition scanRow (r : Row) : option Connection :=
  if (r_upload r <? 0)%Z || (r_download r <? 0)%Z then None
  else Some {| ID := r_id r;
               Meta := {| SourceIP := r_sourceIP r; Host := r_host r;
                          RemoteDestination := "" |};
               Upload := r_upload r; Download := r_download r;
               Start := r_start r;
               Chains := match r_chain r with
                         | Some s => [s]
                         | None => []
                         end |}.

(** [WHERE start >= ? AND start <= ?]. *)
Definition inRange (startDate endDate : Z) (r : Row) : bool :=
  (startDate <=? r_start r)%Z && (r_start r <=? endDate)%Z.

Fixpoint scanRows (rows : list Row) : list Connection :=
  match rows with
  | [] => []
  | r :: rest =>
      match scanRow r with
      | Some conn => conn :: scanRows rest
      | None => scanRows rest
      end
  end.

Definition selectRange (startDate endDate : Z) (db : Table) : list Connection :=
  scanRows (List.filter (inRange startDate endDate) db).

(** ** time.Truncate *)

Definition nsPerSecond : Z := 1000000000%Z.
Definition nsPerMinute : Z := 60000000000%Z.

(** Seconds from the zero [time.Time] (1 January of year 1) to the Unix epoch. *)
Definition unixToInternal : Z := 62135596800%Z.

Definition wrap_int64 (v : Z) : Z := ((v + two63) mod two64 - two63)%Z.

(** [time.Duration(interval) * time.Minute], an [int64] product. *)
Definition durationOfMinutes (interval : Z) : Z := wrap_int64 (interval * nsPerMinute).

(** [t.Truncate(d)] for [t = time.Unix(start, 0)], in nanoseconds since the
    zero time: [t] itself when [d <= 0], else [t] minus the remainder of
    its absolute time by [d]. *)
Definition Truncate (start d : Z) : Z :=
  let t := ((start + unixToInternal) * nsPerSecond)%Z in
  if (d <=? 0)%Z then t else (t - t mod d)%Z.

(** The second that [Format("2006-01-02 15:04:05")] prints for the
    truncated time, as Unix seconds.  For four-digit years in a zone with
    a fixed offset the printed text has a fixed width and determines this
    second, so the group key [fmt.Sprintf("%s-%s", host, timeSlot)] is
    modelled by the pair of the host and this second. *)
Definition timeSlot (interval start : Z) : Z :=
  (Truncate start (durationOfMinutes interval) / nsPerSecond - unixToInternal)%Z.

Definition GroupKey : Type := string * Z.

Definition groupKey (interval : Z) (conn : Connection) : GroupKey :=
  (Host (Meta conn), timeSlot interval (Start conn)).

(** [existing.Upload += conn.Upload; existing.Download += conn.Download]. *)
Definition accumulate (existing conn : Connection) : Connection :=
  {| ID := ID existing; Meta := Meta existing;
     Upload := add64 (Upload existing) (Upload conn);
     Download := add64 (Download existing) (Download conn);
     Start := Start existing; Chains := Chains existing |}.

(** [mergedConnections], a Go map, as an association list with one entry
    per key in the order the keys were first seen. *)
Fixpoint mergeInto (k : GroupKey) (conn : Connection)
    (m : list (GroupKey * Connection)) : list (GroupKey * Connection) :=
  match m with
  | [] => [(k, conn)]
  | (k', existing) :: rest =>
      if decide (k' = k) then (k', accumulate existing conn) :: rest
      else (k', existing) :: mergeInto k conn rest
  end.

Definition groupConnections (interval : Z) (conns : list Connection)
    : list (GroupKey * Connection) :=
  fold_left (fun m conn => mergeInto (groupKey interval conn) conn m) conns [].

(** The chain bound when archiving and when inserting: [conn.Chains[0]]
    or the empty string. *)
Definition firstChain (conn : Connection) : string := List.hd "" (Chains conn).

Definition archiveRowOf (now : Z) (conn : Connection) : ArchiveRow :=
  {| a_row := {| r_id := ID conn; r_sourceIP := SourceIP (Meta conn);
                 r_host := Host (Meta conn); r_upload := Upload conn;
                 r_download := Download conn; r_start := Start conn;
                 r_chain := Some (firstChain conn) |};
     archived_at := now |}.

Definition mergedRowOf (newID : string) (conn : Connection) : Row :=
  {| r_id := newID; r_sourceIP := SourceIP (Meta conn);
     r_host := Host (Meta conn); r_upload := Upload conn;
     r_download := Download conn; r_start := Start conn;
     r_chain := Some (firstChain conn) |}.

(** [DELETE FROM connections WHERE id = ?]. *)
Definition deleteById (id : string) (tx : Table) : Table :=
  List.filter (fun r => negb (hasId id r)) tx.

(** The loop that archives and deletes every original record. *)
Fixpoint archiveLoop (F : Faults) (now : Z) (n : nat) (conns : list Connection)
    (tx : Table) (archiveTx : list ArchiveRow)
    : DBError + (Table * list ArchiveRow) :=
  match conns with
  | [] => inr (tx, archiveTx)
  | conn :: rest =>
      if F (MArchiveExec n) || negb (bindable (Upload conn))
         || negb (bindable (Download conn))
      then inl ErrArchive
      else if F (MDeleteExec n) then inl ErrDelete
      else archiveLoop F now (S n) rest (deleteById (ID conn) tx)
             (archiveTx ++ [archiveRowOf now conn])
  end.

(** The loop over [mergedConnections]; [uuid n] is the value of the
    [n]-th call of [uuid.New().String()].  A plain INSERT fails on an id
    that is already in the table.  Go visits the map in no fixed order;
    the entries are visited here in first-seen order, and since the ids
    handed out are arbitrary this only renames the merged rows. *)
Fixpoint insertLoop (F : Faults) (uuid : nat -> string) (n : nat)
    (merged : list (GroupKey * Connection)) (tx : Table) : DBError + Table :=
  match merged with
  | [] => inr tx
  | (_, conn) :: rest =>
      let newID := uuid n in
      if F (MInsertExec n) || negb (bindable (Upload conn))
         || negb (bindable (Download conn)) || existsb (hasId newID) tx
      then inl ErrInsert
      else insertLoop F uuid (S n) rest (tx ++ [mergedRowOf newID conn])
  end.

(** Everything between the two [Begin]s and the deferred commit. *)
Definition mergeTx (F : Faults) (uuid : nat -> string) (now : Z)
    (conns : list Connection) (merged : list (GroupKey * Connection))
    (db : Table) (archive : list ArchiveRow)
    : DBError + (Table * list ArchiveRow) :=
  if F MPrepareArchive then inl ErrPrepare
  else if F MPrepareDelete then inl ErrPrepare
  else match archiveLoop F now 0 conns db archive with
       | inl e => inl e
       | inr (tx, archiveTx) =>
           if F MPrepareInsert then inl ErrPrepare
           else match insertLoop F uuid 0 merged tx with
                | inl e => inl e
                | inr tx' => inr (tx', archiveTx)
                end
       end.

Record MergeResult := mkMergeResult {
  m_err : option DBError;
  m_db : Table;
  m_archive : list ArchiveRow
}.

(** [mergeAndArchiveConnections].  The tables of the result are the
    committed states.  The result of the Go function is unnamed, so the
    [err] assigned by the deferred [tx.Commit()] is not returned: a failed
    commit leaves both stores as they were and the function returns nil.
    The archive commit runs only after the primary commit succeeded and
    its error is dropped. *)
Definition mergeAndArchiveConnections (F : Faults) (uuid : nat -> string)
    (now : Z) (db : Table) (archive : list ArchiveRow)
    (startDate endDate interval : Z) : MergeResult :=
  if F MQuery then mkMergeResult (Some ErrQuery) db archive
  else
    let connectionsToMerge := selectRange startDate endDate db in
    if Nat.eqb (List.length connectionsToMerge) 0 then mkMergeResult None db archive
    else
      let mergedConnections := groupConnections interval connectionsToMerge in
      if F MBegin then mkMergeResult (Some ErrBegin) db archive
      else if F MArchiveBegin then mkMergeResult (Some ErrArchiveBegin) db archive
      else match mergeTx F uuid now connectionsToMerge mergedConnections db archive with
           | inl e => mkMergeResult (Some e) db archive
           | inr (tx, archiveTx) =>
               if F MCommit then mkMergeResult None db archive
               else if F MArchiveCommit then mkMergeResult None tx archive
               else mkMergeResult None tx archiveTx
           end.

(* ===================================================================== *)
(** * handlers.go: replaceHostHandler                                     *)
(* ===================================================================== *)

(** ** SQLite's LIKE

    [%] matches any run of bytes, [_] one UTF-8 character, every other
    byte itself, upper and lower case ASCII letters being the same. *)
Definition asciiLower (a : ascii) : ascii :=
  let n := nat_of_ascii a in
  if ((65 <=? n) && (n <=? 90))%nat then ascii_of_nat (n + 32) else a.

Definition isContinuation (a : ascii) : bool :=
  let n := nat_of_ascii a in ((128 <=? n) && (n <? 192))%nat.

Fixpoint dropContinuation (s : list ascii) : list ascii :=
  match s with
  | [] => []
  | c :: s' => if isContinuation c then dropContinuation s' else s
  end.

Definition skipChar (s : list ascii) : option (list ascii) :=
  match s with
  | [] => None
  | c :: s' => Some (if (192 <=? nat_of_ascii c)%nat then dropContinuation s' else s')
  end.

Fixpoint likeMatch (pattern s : list ascii) : bool :=
  match pattern with
  | [] => match s with [] => true | _ => false end
  | c :: pattern' =>
      if Ascii.eqb c "%"%char then
        (fix star (s : list ascii) : bool :=
           likeMatch pattern' s
           || match s with [] => false | _ :: s' => star s' end) s
      else if Ascii.eqb c "_"%char then
        match skipChar s with
        | None => false
        | Some s' => likeMatch pattern' s'
        end
      else
        match s with
        | [] => false
        | d :: s' => Ascii.eqb (asciiLower c) (asciiLower d) && likeMatch pattern' s'
        end
  end.

Definition sqlLike (s pattern : string) : bool :=
  likeMatch (list_ascii_of_string pattern) (list_ascii_of_string s).

(** [WHERE host LIKE ? OR host = ?] with [likePattern := "%." + suffix]. *)
Definition replaceWhere (domainSuffix : string) (r : Row) : bool :=
  sqlLike (r_host r) ("%." ++ domainSuffix) || String.eqb (r_host r) domainSuffix.

Definition setRowHost (r : Row) (h : string) : Row :=
  {| r_id := r_id r; r_sourceIP := r_sourceIP r; r_host := h;
     r_upload := r_upload r; r_download := r_download r;
     r_start := r_start r; r_chain := r_chain r |}.

(** [UPDATE connections SET host = ? WHERE ...]. *)
Definition updateHost (domainSuffix : string) (db : Table) : Table :=
  List.map (fun r => if replaceWhere domainSuffix r
                     then setRowHost r domainSuffix else r) db.

Definition rowsAffected (domainSuffix : string) (db : Table) : nat :=
  List.length (List.filter (replaceWhere domainSuffix) db).

Inductive Response :=
  | BadRequestInvalidBody
  | BadRequestEmptySuffix
  | InternalServerError
  | OK (rows : nat).

(** [replaceHostHandler]: [body] is the decoded [DomainSuffix], [None]
    when the request body is not valid JSON. *)
Definition replaceHostHandler (F : Faults) (body : option string) (db : Table)
    : Response * Table :=
  match body with
  | None => (BadRequestInvalidBody, db)
  | Some domainSuffix =>
      if String.eqb domainSuffix "" then (BadRequestEmptySuffix, db)
      else if F RExec then (InternalServerError, db)
      else (OK (rowsAffected domainSuffix db), updateHost domainSuffix db)
  end.

(* ===================================================================== *)
(** * Vocabulary of the statements                                        *)
(* ===================================================================== *)

(** The allow-list entry [suffix] does not match the host [h]. *)
Definition rejects (h : string) (suffix : string) : Prop :=
  HasSuffix h suffix = false.

Definition hosts (conns : list Connection) : list string :=
  List.map (fun c => Host (Meta c)) conns.

(* ===================================================================== *)
(** * config.go                                                           *)
(* ===================================================================== *)

(** [os.Getenv] after [godotenv.Load]: the value of a variable, the empty
    string when it is not set. *)
Definition Env : Type := string -> string.

(** [getValue]: the command-line flag, else the environment, else the
    default. *)
Definition getValue (env : Env) (envKey flagValue defaultValue : string) : string :=
  if negb (String.eqb flagValue "") then flagValue
  else let envValue := env envKey in
       if negb (String.eqb envValue "") then envValue else defaultValue.

(** [strings.Split(s, sep)] for a separator of one byte. *)
Fixpoint splitOn (sep : ascii) (s : string) : list string :=
  match s with
  | EmptyString => [EmptyString]
  | String c rest =>
      if Ascii.eqb c sep then EmptyString :: splitOn sep rest
      else match splitOn sep rest with
           | [] => [String c EmptyString]
           | piece :: pieces => String c piece :: pieces
           end
  end.

(** [strings.Join(pieces, sep)] for a separator of one byte. *)
Fixpoint joinWith (sep : ascii) (pieces : list string) : string :=
  match pieces with
  | [] => EmptyString
  | [piece] => piece
  | piece :: more => piece +:+ String sep (joinWith sep more)
  end.

(** The minutes between two flushes: the flag when it is positive, else
    the environment variable when [strconv.Atoi] reads a positive number
    from it, else 3.  [envMinutes] is what [Atoi] returned, [None] for an
    error. *)
Definition dbWriteIntervalMinutes (dbWriteInterval : Z) (envMinutes : option Z) : Z :=
  if (0 <? dbWriteInterval)%Z then dbWriteInterval
  else match envMinutes with
       | None => 3%Z
       | Some interval => if (interval <=? 0)%Z then 3%Z else interval
       end.

(** [HostSuffixWhitelist]: nil for an empty variable, else the variable
    split at its commas. *)
Definition hostSuffixWhitelistOf (hostSuffixWhitelistStr : string) : list string :=
  if negb (String.eqb hostSuffixWhitelistStr "") then
    splitOn ","%char hostSuffixWhitelistStr
  else [].

Record Config := mkConfig {
  ClashAPIURL : string;
  ClashAPIToken : string;
  DatabasePath : string;
  ArchiveDatabasePath : string;
  DBWriteInterval : Z;
  APISyncInterval : Z;
  WebPort : string;
  HostSuffixWhitelist : list string
}.

(** [LoadConfig].  [atoi] stands for [strconv.Atoi]. *)
Definition LoadConfig (env : Env) (atoi : string -> option Z)
    (clashAPIURL clashAPIToken databasePath archiveDatabasePath webPort : string)
    (dbWriteInterval : Z) : Config :=
  {| ClashAPIURL :=
       getValue env "CLASH_API_URL" clashAPIURL "http://127.0.0.1:9090/connections";
     ClashAPIToken := getValue env "CLASH_API_TOKEN" clashAPIToken "";
     DatabasePath := getValue env "DATABASE_PATH" databasePath "./clash_traffic.db";
     ArchiveDatabasePath :=
       getValue env "ARCHIVE_DATABASE_PATH" archiveDatabasePath
         "./clash_traffic_archive.db";
     DBWriteInterval :=
       durationOfMinutes
         (dbWriteIntervalMinutes dbWriteInterval
            (atoi (env "DB_WRITE_INTERVAL_MINUTES")));
     APISyncInterval := nsPerSecond;
     WebPort := getValue env "WEB_PORT" webPort "8081";
     HostSuffixWhitelist := hostSuffixWhitelistOf (env "HOST_SUFFIX_WHITELIST") |}.

(** The number of bytes of [s] equal to [c]. *)
Fixpoint countByte (c : ascii) (s : string) : nat :=
  match s with
  | EmptyString => 0
  | String a rest => (if Ascii.eqb a c then 1 else 0) + countByte c rest
  end.

(* ===================================================================== *)
(** * handlers.go: getConnectionsHandler                                  *)
(* ===================================================================== *)

(** The query parameters as the handler reads them: the numbers are what
    [strconv.Atoi] and [strconv.ParseInt] returned (errors ignored), and
    [q_sortDesc] is [strings.ToLower(sortOrder) == "desc"]. *)
Record ListQuery := mkListQuery {
  q_page : Z;
  q_pageSize : Z;
  q_host : string;
  q_sourceIP : string;
  q_startDate : Z;
  q_endDate : Z;
  q_sortBy : string;
  q_sortDesc : bool;
  q_chain : string
}.

(** [if page < 1 { page = 1 }]. *)
Definition normalizePage (page : Z) : Z := if (page <? 1)%Z then 1%Z else page.

(** [if pageSize <= 0 { pageSize = 20 }]. *)
Definition normalizePageSize (pageSize : Z) : Z :=
  if (pageSize <=? 0)%Z then 20%Z else pageSize.

(** The WHERE clause built from the parameters that are set. *)
Definition connectionsWhere (q : ListQuery) (r : Row) : bool :=
  (String.eqb (q_host q) "" || sqlLike (r_host r) ("%" +:+ q_host q +:+ "%"))
  && (String.eqb (q_sourceIP q) ""
      || sqlLike (r_sourceIP r) ("%" +:+ q_sourceIP q +:+ "%"))
  && ((q_startDate q <=? 0)%Z || (q_startDate q <=? r_start r)%Z)
  && ((q_endDate q <=? 0)%Z || (r_start r <=? q_endDate q)%Z)
  && (String.eqb (q_chain q) ""
      || match r_chain r with
         | Some chain => String.eqb chain (q_chain q)
         | None => false
         end).

Inductive SortColumn := ByUpload | ByDownload | ByStart | ByHost | BySourceIP.

(** [allowedSortBy]. *)
Definition sortColumnOf (dbSortBy : string) : option SortColumn :=
  if String.eqb dbSortBy "upload" then Some ByUpload
  else if String.eqb dbSortBy "download" then Some ByDownload
  else if String.eqb dbSortBy "start" then Some ByStart
  else if String.eqb dbSortBy "host" then Some ByHost
  else if String.eqb dbSortBy "sourceIP" then Some BySourceIP
  else None.

(** The ORDER BY clause: a column and whether the order is descending. *)
Definition orderByClause (sortBy : string) (sortDesc : bool) : SortColumn * bool :=
  if String.eqb sortBy "" then (ByStart, true)
  else
    let dbSortBy := if String.eqb sortBy "metadata.host" then "host" else sortBy in
    let dbSortBy :=
      if String.eqb sortBy "metadata.sourceIP" then "sourceIP" else dbSortBy in
    match sortColumnOf dbSortBy with
    | Some column => (column, sortDesc)
    | None => (ByStart, true)
    end.

(** [LIMIT ? OFFSET ?] in SQLite: a negative offset is no offset, a
    negative limit is no limit. *)
Definition sqlLimitOffset {A : Type} (limit offset : Z) (rows : list A) : list A :=
  let rest := drop (Z.to_nat offset) rows in
  if (limit <? 0)%Z then rest else take (Z.to_nat limit) rest.

Record ConnectionInfo := mkConnectionInfo {
  i_host : string;
  i_sourceIP : string;
  i_upload : Z;
  i_download : Z;
  i_start : Z;
  i_chains : list string
}.

Definition infoOfConnection (conn : Connection) : ConnectionInfo :=
  {| i_host := Host (Meta conn); i_sourceIP := SourceIP (Meta conn);
     i_upload := Upload conn; i_download := Download conn;
     i_start := Start conn; i_chains := Chains conn |}.

(** The scanning loop of the handler; a row that fails to scan is
    skipped. *)
Definition scanInfos (rows : list Row) : list ConnectionInfo :=
  List.map infoOfConnection (scanRows rows).

Record ListResponse := mkListResponse {
  l_total : Z;
  l_page : Z;
  l_pageSize : Z;
  l_totalPages : Z;
  l_data : list ConnectionInfo
}.

(** [(page-1)*pageSize], an [int] product. *)
Definition pageOffset (page pageSize : Z) : Z := wrap_int64 ((page - 1) * pageSize).

(** [(total + pageSize - 1) / pageSize] on [int]. *)
Definition totalPagesOf (total pageSize : Z) : Z :=
  Z.quot (wrap_int64 (total + pageSize - 1)) pageSize.

(** [getConnectionsHandler].  [order column desc rows] is the order in
    which SQLite returns [rows] for the ORDER BY clause; [countFails] and
    [queryFails] say whether the COUNT query and the SELECT fail, in
    which case the answer is a 500, here [None]. *)
Definition getConnectionsHandler
    (order : SortColumn -> bool -> list Row -> list Row)
    (countFails queryFails : bool) (q : ListQuery) (db : Table)
    : option ListResponse :=
  let page := normalizePage (q_page q) in
  let pageSize := normalizePageSize (q_pageSize q) in
  if countFails then None
  else
    let total := Z.of_nat (List.length (List.filter (connectionsWhere q) db)) in
    let '(column, desc) := orderByClause (q_sortBy q) (q_sortDesc q) in
    if queryFails then None
    else
      let rows := sqlLimitOffset pageSize (pageOffset page pageSize)
                    (order column desc (List.filter (connectionsWhere q) db)) in
      Some {| l_total := total; l_page := page; l_pageSize := pageSize;
              l_totalPages := totalPagesOf total pageSize;
              l_data := scanInfos rows |}.

(** The same request for another page. *)
Definition withPage (q : ListQuery) (page : Z) : ListQuery :=
  {| q_page := page; q_pageSize := q_pageSize q; q_host := q_host q;
     q_sourceIP := q_sourceIP q; q_startDate := q_startDate q;
     q_endDate := q_endDate q; q_sortBy := q_sortBy q;
     q_sortDesc := q_sortDesc q; q_chain := q_chain q |}.

(** The data of one page, empty for a 500. *)
Definition pageData (order : SortColumn -> bool -> list Row -> list Row)
    (q : ListQuery) (db : Table) (page : Z) : list ConnectionInfo :=
  match getConnectionsHandler order false false (withPage q page) db with
  | Some response => l_data response
  | None => []
  end.

(* ===================================================================== *)
(** * handlers.go: mergeConnectionsHandler                                *)
(* ===================================================================== *)

(** [MergeRequest]: the decoded JSON body of POST /api/connections/merge. *)
Record MergeRequest := mkMergeRequest {
  StartDate : Z;
  EndDate : Z;
  Interval : Z
}.

(** The answers of the handler: 400 for a body that does not decode, 500
    when a handle is missing from the request context or the merge
    returned an error, 200 otherwise. *)
Inductive MergeResponse :=
| MergeBadRequest
| MergeNoDatabase
| MergeNoArchiveDatabase
| MergeFailed (e : DBError)
| MergeOK.

(** What a request leaves behind: the answer, the two stores, and the
    outcome of VACUUM ([None] when it was not run, [Some true] when it
    succeeded). *)
Record MergeHandled := mkMergeHandled {
  mh_response : MergeResponse;
  mh_db : Table;
  mh_archive : list ArchiveRow;
  mh_vacuum : option bool
}.

(** [mergeConnectionsHandler].  [body] is the result of decoding the
    request ([None] when [Decode] fails), [hasDb] and [hasArchiveDB] tell
    whether the two handles are in the request context, [vacuumFails]
    whether the VACUUM statement fails.  VACUUM rebuilds the file and
    leaves the rows as they are. *)
Definition mergeConnectionsHandler (F : Faults) (uuid : nat -> string) (now : Z)
    (hasDb hasArchiveDB vacuumFails : bool) (body : option MergeRequest)
    (db : Table) (archive : list ArchiveRow) : MergeHandled :=
  match body with
  | None => mkMergeHandled MergeBadRequest db archive None
  | Some req =>
      if negb hasDb then mkMergeHandled MergeNoDatabase db archive None
      else if negb hasArchiveDB then
        mkMergeHandled MergeNoArchiveDatabase db archive None
      else
        let res := mergeAndArchiveConnections F uuid now db archive
                     (StartDate req) (EndDate req) (Interval req) in
        match m_err res with
        | Some e => mkMergeHandled (MergeFailed e) (m_db res) (m_archive res) None
        | None =>
            mkMergeHandled MergeOK (m_db res) (m_archive res)
              (Some (negb vacuumFails))
        end
  end.

(* ===================================================================== *)
(** * Sample data used by the examples                                    *)
(* ===================================================================== *)

Definition sampleConn (id host fallback : string) (up down start : Z) : Connection :=
  {| ID := id;
     Meta := {| SourceIP := "192.168.2.95"; Host := host;
                RemoteDestination := fallback |};
     Upload := up; Download := down; Start := start;
     Chains := ["DIRECT"; "proxy-a"] |}.

Definition sampleRow (id host : string) (up down start : Z) : Row :=
  {| r_id := id; r_sourceIP := "192.168.2.95"; r_host := host;
     r_upload := up; r_download := down; r_start := start;
     r_chain := Some "proxy-a" |}.

(** An allow-list as [strings.Split("bar,", ",")] produces it: the
    trailing comma leaves an empty entry. *)
Definition trailingCommaWhitelist : list string := ["bar"; ""].

Definition threeRecords : list Connection :=
  [sampleConn "a" "a.com" "" 10 20 0;
   sampleConn "b" "b.com" "" 1 2 0;
   sampleConn "c" "c.com" "" 3 4 0].

(** The cache after one poll that saw the three records. *)
Definition threeRecordCache : Cache := storeAll threeRecords ∅.

(** Generated ids for the examples: distinct for the first two hundred
    calls and never one of the short ids the examples store. *)
Definition sampleUuid (n : nat) : string :=
  String (ascii_of_nat (48 + n)) "-merged".

(** Two records of one host, two minutes apart. *)
Definition twoRecords : Table :=
  [sampleRow "x" "a.com" 10 20 1700000400;
   sampleRow "y" "a.com" 5 5 1700000520].

(** Three records of one host and one ten-minute bucket whose upload
    counters add up to [2^64]. *)
Definition hugeRecords : Table :=
  [sampleRow "x" "a.com" 9223372036854775807 1 1700000400;
   sampleRow "y" "a.com" 9223372036854775807 1 1700000460;
   sampleRow "z" "a.com" 2 1 1700000520].

(** Two rows agree on everything an upsert must leave alone. *)
Definition sameIdentity (r r' : Row) : Prop :=
  r_id r' = r_id r /\ r_sourceIP r' = r_sourceIP r /\ r_host r' = r_host r
  /\ r_start r' = r_start r /\ r_chain r' = r_chain r.

(** The cache is keyed by the id of the record it holds, as
    [connectionsCache.Store(conn.ID, conn)] makes it. *)
Definition keyedById (cache : Cache) : Prop :=
  forall k c, cache !! k = Some c -> ID c = k.

(** The flush committed its transaction. *)
Definition flushSucceeded (res : FlushResult) : Prop := In LogWriteOk (f_log res).

(** No row of the Primary Store has an empty host. *)
Definition hostInvariant (db : Table) : Prop :=
  List.Forall (fun r => r_host r <> "") db.

(** The states of the Primary Store: created empty by [InitDB], then
    changed only by the flush, the merge and the host replacement. *)
Inductive reachable : Table -> Prop :=
  | reach_init : reachable []
  | reach_flush F db conns :
      reachable db -> reachable (snd (BulkUpsertConnections F db conns))
  | reach_merge F uuid now db archive startDate endDate interval :
      reachable db ->
      reachable (m_db (mergeAndArchiveConnections F uuid now db archive
                         startDate endDate interval))
  | reach_replace F body db :
      reachable db -> reachable (snd (replaceHostHandler F body db)).

(** The three steps of one flush, with nothing scheduled in between. *)
Definition flushSteps : list Action := [ActFlusher; ActFlusher; ActFlusher].

(** A fault plan whose only fault is the [k]-th [Exec] of the upsert. *)
Definition failExec (k : nat) : Faults :=
  fun site => match site with SExec n => Nat.eqb n k | _ => false end.

(** A put is not lost by a run: the record is in the drain result of the
    flush or in the cache afterwards. *)
Definition notLost (F : Faults) (schedule : list Action) (db : Table)
    (cache : Cache) (R : Connection) : Prop :=
  let s := run F schedule (startFlush db cache) in
  In R (s_saved s) \/ s_cache s !! ID R = Some R.

(** The store holds, under [id], a row with these two counters. *)
Definition persisted (db : Table) (id : string) (up down : Z) : Prop :=
  exists r, findRow id db = Some r /\ r_upload r = up /\ r_download r = down.

(** ** Vocabulary of the merge *)

(** The counters of a row as this program writes them: a [uint64] below
    [2^63], the only values [database/sql] binds. *)
Definition countersStored (r : Row) : Prop :=
  (0 <= r_upload r < two63)%Z /\ (0 <= r_download r < two63)%Z.

(** The [Connection] that a successful [rows.Scan] builds. *)
Definition connOfRow (r : Row) : Connection :=
  {| ID := r_id r;
     Meta := {| SourceIP := r_sourceIP r; Host := r_host r;
                RemoteDestination := "" |};
     Upload := r_upload r; Download := r_download r; Start := r_start r;
     Chains := match r_chain r with Some s => [s] | None => [] end |}.

(** The (host, bucket) pair of a stored row. *)
Definition rowKey (interval : Z) (r : Row) : GroupKey :=
  (r_host r, timeSlot interval (r_start r)).

(** The rows of a (host, bucket) group, in table order. *)
Definition groupOf (interval : Z) (k : GroupKey) (rows : list Row) : list Row :=
  List.filter (fun r => bool_decide (rowKey interval r = k)) rows.

Definition members (interval : Z) (k : GroupKey) (conns : list Connection)
    : list Connection :=
  List.filter (fun c => bool_decide (groupKey interval c = k)) conns.

Definition sumZ (l : list Z) : Z := fold_right Z.add 0%Z l.

(** Reading [mergedConnections[k]]. *)
Definition lookupGroup (k : GroupKey) (m : list (GroupKey * Connection))
    : option Connection :=
  match List.find (fun kc => bool_decide (fst kc = k)) m with
  | Some kc => Some (snd kc)
  | None => None
  end.

(** The rows the insert loop writes for the entries of [merged], the
    first of them with the [n]-th generated id. *)
Fixpoint mergedRows (uuid : nat -> string) (n : nat)
    (merged : list (GroupKey * Connection)) : list Row :=
  match merged with
  | [] => []
  | (_, conn) :: rest => mergedRowOf (uuid n) conn :: mergedRows uuid (S n) rest
  end.

(** Membership of an id in a list of ids. *)
Definition idIn (l : list string) (id : string) : bool :=
  existsb (String.eqb id) l.

(** The bucket width in seconds, and the widths for which
    [time.Duration(interval) * time.Minute] does not overflow. *)
Definition widthSeconds (interval : Z) : Z := (interval * 60)%Z.
Definition maxInterval : Z := 153722867%Z.

(** ** Vocabulary of the host replacement *)

Definition isWildcard (c : ascii) : bool :=
  Ascii.eqb c "%"%char || Ascii.eqb c "_"%char.

(** A suffix without the two LIKE wildcards. *)
Definition wildcardFree (s : string) : bool :=
  forallb (fun c => negb (isWildcard c)) (list_ascii_of_string s).

(** A string with its upper case ASCII letters made lower case. *)
Definition lowerString (s : string) : string :=
  string_of_list_ascii (List.map asciiLower (list_ascii_of_string s)).

(** [s] ends with [suffix] when the case of ASCII letters is ignored. *)
Definition endsWithFold (s suffix : string) : Prop :=
  exists p t, s = p +:+ t /\ lowerString t = lowerString suffix.

(* ===================================================================== *)
(** * Further vocabulary                                                  *)
(* ===================================================================== *)

(** A fault plan with its two commit faults removed. *)
Definition withoutCommitFaults (F : Faults) : Faults :=
  fun site =>
    match site with
    | MCommit | MArchiveCommit => false
    | _ => F site
    end.

(** A stored row as the archive keeps it: the chain bound as a Go string,
    a NULL chain as the empty string. *)
Definition archivedForm (r : Row) : Row :=
  {| r_id := r_id r; r_sourceIP := r_sourceIP r; r_host := r_host r;
     r_upload := r_upload r; r_download := r_download r; r_start := r_start r;
     r_chain := Some (default "" (r_chain r)) |}.

(** [s] contains [text] when the case of ASCII letters is ignored. *)
Definition containsFold (s text : string) : Prop :=
  exists a m b, s = a +:+ m +:+ b /\ lowerString m = lowerString text.

(* ===================================================================== *)
(** * Go strings: what HasSuffix means                                    *)
(* ===================================================================== *)

Section GoStrings.

Lemma app_string_cons (a : ascii) (p q : string) :
  String a p +:+ q = String a (p +:+ q).
Proof. reflexivity. Qed.

Lemma app_string_nil (q : string) : "" +:+ q = q.
Proof. reflexivity. Qed.

Lemma length_app_string (p q : string) :
  String.length (p +:+ q) = String.length p + String.length q.
Proof.
  induction p as [|a p IH]; [reflexivity|].
  rewrite app_string_cons. simpl. now rewrite IH.
Qed.

Lemma string_drop_app (p q : string) :
  string_drop (String.length p) (p +:+ q) = q.
Proof.
  induction p as [|a p IH]; [reflexivity|].
  rewrite app_string_cons. simpl. exact IH.
Qed.

Lemma string_drop_split (n : nat) :
  forall s, n <= String.length s -> exists p, s = p +:+ string_drop n s.
Proof.
  induction n as [|n IH]; intros s Hn.
  - exists EmptyString. reflexivity.
  - destruct s as [|a s]; simpl in Hn; [lia|].
    destruct (IH s) as [p Hp]; [lia|].
    exists (String a p). rewrite app_string_cons. simpl. f_equal. exact Hp.
Qed.

Lemma app_string_assoc (a b c : string) : (a +:+ b) +:+ c = a +:+ (b +:+ c).
Proof.
  induction a as [|x a IH]; [reflexivity|].
  rewrite !app_string_cons. now rewrite IH.
Qed.

(** [HasSuffix s suffix] holds exactly when [s] is some prefix followed
    by [suffix]. *)
Lemma HasSuffix_spec (s suffix : string) :
  HasSuffix s suffix = true <-> exists p, s = p +:+ suffix.
Proof.
  unfold HasSuffix. rewrite andb_true_iff, Nat.leb_le, String.eqb_eq. split.
  - intros [Hle Heq].
    destruct (string_drop_split (String.length s - String.length suffix) s)
      as [p Hp]; [lia|].
    exists p. now rewrite Heq in Hp.
  - intros [p ->]. rewrite length_app_string. split; [lia|].
    replace (String.length p + String.length suffix - String.length suffix)
      with (String.length p) by lia.
    apply string_drop_app.
Qed.

Lemma HasSuffix_refl (s : string) : HasSuffix s s = true.
Proof. apply HasSuffix_spec. now exists EmptyString. Qed.

Lemma HasSuffix_trans (a b c : string) :
  HasSuffix a b = true -> HasSuffix b c = true -> HasSuffix a c = true.
Proof.
  rewrite !HasSuffix_spec. intros [p ->] [q ->].
  exists (p +:+ q). now rewrite app_string_assoc.
Qed.

Lemma HasSuffix_empty_l (s : string) : HasSuffix "" s = true -> s = "".
Proof.
  rewrite HasSuffix_spec. intros [p Hp].
  destruct p; [now symmetry | discriminate].
Qed.

End GoStrings.

(* ===================================================================== *)
(** * The normaliser                                                      *)
(* ===================================================================== *)

Section Normaliser.

Variable hostSuffixWhitelist : list string.

Lemma applyWhitelist_first (h : string) (pre : list string) (suffix : string)
    (post : list string) :
  Forall (rejects h) pre -> HasSuffix h suffix = true ->
  applyWhitelist h (pre ++ suffix :: post) = suffix.
Proof.
  induction 1 as [|x pre Hx _ IH]; intros Hs; simpl.
  - now rewrite Hs.
  - unfold rejects in Hx. rewrite Hx. now apply IH.
Qed.

Lemma applyWhitelist_none (h : string) (wl : list string) :
  Forall (rejects h) wl -> applyWhitelist h wl = h.
Proof.
  induction 1 as [|x wl Hx _ IH]; simpl; [reflexivity|].
  unfold rejects in Hx. now rewrite Hx.
Qed.

Lemma applyWhitelist_cases (h : string) (wl : list string) :
  (Forall (rejects h) wl /\ applyWhitelist h wl = h)
  \/ (exists pre suffix post,
        wl = pre ++ suffix :: post /\ Forall (rejects h) pre
        /\ HasSuffix h suffix = true /\ applyWhitelist h wl = suffix).
Proof.
  induction wl as [|x wl IH]; simpl.
  - left. split; [constructor | reflexivity].
  - destruct (HasSuffix h x) eqn:Hx.
    + right. exists [], x, wl. repeat split; auto.
    + destruct IH as [[Hall Heq] | (pre & s & post & -> & Hpre & Hs & Heq)].
      * left. split; [constructor; assumption | assumption].
      * right. exists (x :: pre), s, post.
        split; [reflexivity|]. split; [constructor; assumption|]. now split.
Qed.

Lemma applyWhitelist_find (h : string) (wl : list string) :
  applyWhitelist h wl =
  match List.find (HasSuffix h) wl with Some suffix => suffix | None => h end.
Proof.
  induction wl as [|x wl IH]; simpl; [reflexivity|].
  destruct (HasSuffix h x); [reflexivity | exact IH].
Qed.

(** The suffix collapse alone is idempotent for every allow-list. *)
Lemma applyWhitelist_idempotent (h : string) (wl : list string) :
  applyWhitelist (applyWhitelist h wl) wl = applyWhitelist h wl.
Proof.
  destruct (applyWhitelist_cases h wl)
    as [[Hall Heq] | (pre & s & post & Hwl & Hpre & Hs & Heq)].
  - rewrite Heq. exact Heq.
  - rewrite Heq. rewrite Hwl. apply applyWhitelist_first.
    + eapply Forall_impl; [exact Hpre|].
      intros x Hx. unfold rejects in *.
      destruct (HasSuffix s x) eqn:Hsx; [|reflexivity].
      rewrite (HasSuffix_trans h s x Hs Hsx) in Hx. discriminate.
    + apply HasSuffix_refl.
Qed.

Lemma applyWhitelist_empty_result (h : string) (wl : list string) :
  ~ In "" wl -> applyWhitelist h wl = "" -> h = "".
Proof.
  intros Hne Heq.
  destruct (applyWhitelist_cases h wl)
    as [[_ Hh] | (pre & s & post & Hwl & _ & _ & Hs)].
  - congruence.
  - exfalso. apply Hne. rewrite Hwl. apply in_or_app. right. left. congruence.
Qed.

Lemma fillHost_host (c : Connection) :
  Host (Meta (fillHost c)) =
  if decide (Host (Meta c) = "") then RemoteDestination (Meta c)
  else Host (Meta c).
Proof.
  unfold fillHost. destruct (String.eqb_spec (Host (Meta c)) "") as [E|E];
    destruct (decide (Host (Meta c) = "")); try contradiction; reflexivity.
Qed.

Lemma cleanConnection_host (c : Connection) :
  Host (Meta (cleanConnection hostSuffixWhitelist c)) =
  spec_host hostSuffixWhitelist c.
Proof.
  unfold cleanConnection, collapseHost, spec_host. cbn [setHost Host Meta].
  rewrite applyWhitelist_find, fillHost_host. reflexivity.
Qed.

Lemma cleanConnection_idempotent (c : Connection) :
  ~ In "" hostSuffixWhitelist ->
  cleanConnection hostSuffixWhitelist (cleanConnection hostSuffixWhitelist c)
  = cleanConnection hostSuffixWhitelist c.
Proof.
  intros Hne. destruct c as [id [sip h rd] u d s ch].
  unfold cleanConnection, collapseHost, fillHost. cbn.
  destruct (String.eqb_spec h "") as [-> | Hh]; cbn.
  - destruct (String.eqb_spec (applyWhitelist rd hostSuffixWhitelist) "") as [E|E]; cbn.
    + pose proof (applyWhitelist_empty_result _ _ Hne E) as ->.
      now rewrite !E.
    + now rewrite applyWhitelist_idempotent.
  - destruct (String.eqb_spec (applyWhitelist h hostSuffixWhitelist) "") as [E|E]; cbn.
    + exfalso. apply Hh. eapply applyWhitelist_empty_result; eauto.
    + now rewrite applyWhitelist_idempotent.
Qed.

End Normaliser.

(* ===================================================================== *)
(** * Claims about the normaliser                                         *)
(* ===================================================================== *)

(** C5 (normalisation definition).  For every record and every ordered
    allow-list: the fallback destination fills an empty host; the first
    allow-list entry, in list order, that the filled host ends with
    replaces the host entirely and ends the scan; a record that no entry
    matches keeps its filled host; the other fields are untouched; the
    code agrees with the design's description on every record of every
    snapshot; and ["v22.lscache6.googlevideo.com"] with the allow-list
    [["googlevideo.com"]] becomes ["googlevideo.com"]. *)
Theorem normalization_definition (hostSuffixWhitelist : list string) (c : Connection) :
  let filled :=
    if decide (Host (Meta c) = "") then RemoteDestination (Meta c)
    else Host (Meta c) in
  let c' := cleanConnection hostSuffixWhitelist c in
  Host (Meta (fillHost c)) = filled
  /\ (forall pre suffix post,
        hostSuffixWhitelist = pre ++ suffix :: post ->
        Forall (rejects filled) pre ->
        HasSuffix filled suffix = true ->
        Host (Meta c') = suffix)
  /\ (Forall (rejects filled) hostSuffixWhitelist -> Host (Meta c') = filled)
  /\ Host (Meta c') = spec_host hostSuffixWhitelist c
  /\ (ID c' = ID c /\ Upload c' = Upload c /\ Download c' = Download c
      /\ Start c' = Start c /\ Chains c' = Chains c
      /\ SourceIP (Meta c') = SourceIP (Meta c)
      /\ RemoteDestination (Meta c') = RemoteDestination (Meta c))
  /\ (forall conns,
        GetClashConnections (Some conns) hostSuffixWhitelist
          = Some (cleanConnections hostSuffixWhitelist conns)
        /\ hosts (cleanConnections hostSuffixWhitelist conns)
          = List.map (spec_host hostSuffixWhitelist) conns)
  /\ Host (Meta (cleanConnection ["googlevideo.com"]
                   (sampleConn "a" "v22.lscache6.googlevideo.com" "" 100 200 0)))
     = "googlevideo.com".
Proof.
  intros filled c'.
  assert (Hfill : Host (Meta (fillHost c)) = filled) by apply fillHost_host.
  assert (Hc' : Host (Meta c') = applyWhitelist filled hostSuffixWhitelist).
  { subst c'. unfold cleanConnection, collapseHost. cbn [setHost Host Meta].
    now rewrite Hfill. }
  split; [exact Hfill|].
  split.
  { intros pre suffix post -> Hpre Hs. rewrite Hc'.
    now apply applyWhitelist_first. }
  split.
  { intros Hall. rewrite Hc'. now apply applyWhitelist_none. }
  split; [apply cleanConnection_host|].
  split.
  { subst c'. unfold cleanConnection, collapseHost, fillHost.
    destruct (Host (Meta c) =? "")%string; cbn; repeat split. }
  split; [|reflexivity].
  intros conns. split; [reflexivity|].
  unfold hosts, cleanConnections. rewrite List.map_map.
  apply List.map_ext. intros a. apply cleanConnection_host.
Qed.

(** C6, as stated, fails: with the allow-list [["bar"; ""]] a record with
    host ["foo"] and fallback ["x.bar"] is normalised to the empty host,
    and normalising that result again gives ["bar"]. *)
Lemma normalization_twice_differs :
  let once := cleanConnections trailingCommaWhitelist
                [sampleConn "a" "foo" "x.bar" 100 200 0] in
  let twice := cleanConnections trailingCommaWhitelist once in
  hosts once = [""] /\ hosts twice = ["bar"] /\ hosts twice <> hosts once.
Proof. cbv zeta. split; [reflexivity|]. split; [reflexivity|]. discriminate. Qed.

(** C6 (normalisation idempotence), amended.  For every snapshot and every
    ordered allow-list that does not contain the empty string,
    normalising twice gives the same records as normalising once. *)
Theorem normalization_idempotent (hostSuffixWhitelist : list string)
    (conns : list Connection) :
  ~ In "" hostSuffixWhitelist ->
  cleanConnections hostSuffixWhitelist (cleanConnections hostSuffixWhitelist conns)
  = cleanConnections hostSuffixWhitelist conns.
Proof.
  intros Hne. unfold cleanConnections. rewrite List.map_map.
  apply List.map_ext. intros c. now apply cleanConnection_idempotent.
Qed.

Lemma normalization_idempotent_witness :
  ~ In "" ["googlevideo.com"; "ad.com"]
  /\ cleanConnections ["googlevideo.com"; "ad.com"]
       (cleanConnections ["googlevideo.com"; "ad.com"]
          [sampleConn "a" "v22.lscache6.googlevideo.com" "" 100 200 0;
           sampleConn "b" "" "1.2.3.4:443" 1 2 0])
     = cleanConnections ["googlevideo.com"; "ad.com"]
         [sampleConn "a" "v22.lscache6.googlevideo.com" "" 100 200 0;
          sampleConn "b" "" "1.2.3.4:443" 1 2 0].
Proof.
  assert (H : ~ In "" ["googlevideo.com"; "ad.com"]).
  { intros [H|[H|[]]]; discriminate. }
  split; [exact H|].
  exact (normalization_idempotent _ _ H).
Defined.

(** The suffix collapse on its own is idempotent for every allow-list,
    the empty entry included. *)
Lemma collapse_idempotent (hostSuffixWhitelist : list string) (c : Connection) :
  collapseHost hostSuffixWhitelist (collapseHost hostSuffixWhitelist c)
  = collapseHost hostSuffixWhitelist c.
Proof.
  unfold collapseHost. cbn [setHost Host Meta].
  rewrite applyWhitelist_idempotent. reflexivity.
Qed.

(* ===================================================================== *)
(** * The upsert statement and the batch                                  *)
(* ===================================================================== *)

Section Upsert.

Lemma hasId_true (id : string) (r : Row) : hasId id r = true <-> r_id r = id.
Proof. unfold hasId. apply String.eqb_eq. Qed.

Lemma hasId_false (id : string) (r : Row) : hasId id r = false <-> r_id r <> id.
Proof. unfold hasId. apply String.eqb_neq. Qed.

Lemma findRow_id (id : string) (db : Table) (r : Row) :
  findRow id db = Some r -> r_id r = id /\ In r db.
Proof.
  unfold findRow. intros H. apply List.find_some in H as [Hin Hid].
  split; [now apply hasId_true | exact Hin].
Qed.

Lemma findRow_None (id : string) (db : Table) :
  findRow id db = None <-> ~ In id (ids db).
Proof.
  unfold findRow, ids. induction db as [|a db IH]; simpl.
  - split; [intros _ [] | reflexivity].
  - destruct (hasId id a) eqn:Ha.
    + apply hasId_true in Ha. split; [discriminate | intros H; exfalso; auto].
    + apply hasId_false in Ha. rewrite IH. tauto.
Qed.

Lemma existsb_hasId (id : string) (db : Table) :
  existsb (hasId id) db = true <-> In id (ids db).
Proof.
  rewrite existsb_exists. unfold ids. rewrite in_map_iff.
  split; intros (r & H1 & H2).
  - exists r. split; [now apply hasId_true | exact H1].
  - exists r. split; [exact H2 | now apply hasId_true].
Qed.

Lemma existsb_hasId_false (id : string) (db : Table) :
  existsb (hasId id) db = false <-> ~ In id (ids db).
Proof. rewrite <- existsb_hasId. destruct (existsb _ _); intuition congruence. Qed.

Lemma findRow_app_absent (id : string) (db : Table) (r : Row) :
  findRow id db = None -> findRow id (db ++ [r]) = if hasId id r then Some r else None.
Proof.
  unfold findRow. induction db as [|a db IH]; simpl; [reflexivity|].
  destruct (hasId id a); [discriminate | exact IH].
Qed.

Lemma findRow_app_present (id : string) (db : Table) (r x : Row) :
  findRow id db = Some x -> findRow id (db ++ [r]) = Some x.
Proof.
  unfold findRow. induction db as [|a db IH]; simpl; [discriminate|].
  destruct (hasId id a); [auto | exact IH].
Qed.

(** The upserted id afterwards: the old row with the new counters, or
    the whole new row. *)
Lemma findRow_upsert_same (new : Row) (db : Table) :
  findRow (r_id new) (upsertRow new db) =
  match findRow (r_id new) db with
  | Some old => Some (setCounters old (r_upload new) (r_download new))
  | None => Some new
  end.
Proof.
  unfold upsertRow. destruct (existsb (hasId (r_id new)) db) eqn:Hex.
  - unfold findRow. induction db as [|a db IH]; simpl in *; [discriminate|].
    destruct (hasId (r_id new) a) eqn:Ha; simpl.
    + unfold hasId in *. simpl. now rewrite Ha.
    + rewrite Ha. apply IH. exact Hex.
  - apply existsb_hasId_false, findRow_None in Hex. rewrite Hex.
    rewrite (findRow_app_absent _ _ _ Hex).
    unfold hasId. now rewrite String.eqb_refl.
Qed.

(** Every other id is left as it was. *)
Lemma findRow_upsert_other (id : string) (new : Row) (db : Table) :
  id <> r_id new -> findRow id (upsertRow new db) = findRow id db.
Proof.
  intros Hne. unfold upsertRow.
  destruct (existsb (hasId (r_id new)) db) eqn:Hex.
  - clear Hex. unfold findRow. induction db as [|a db IH]; simpl; [reflexivity|].
    destruct (hasId (r_id new) a) eqn:Ha; simpl.
    + apply hasId_true in Ha.
      assert (Hf : hasId id a = false) by (apply hasId_false; congruence).
      unfold hasId in *. simpl. rewrite Hf. exact IH.
    + destruct (hasId id a); [reflexivity | exact IH].
  - destruct (findRow id db) as [x|] eqn:Hx.
    + now apply findRow_app_present.
    + rewrite (findRow_app_absent _ _ _ Hx).
      assert (Hf : hasId id new = false) by (apply hasId_false; congruence).
      now rewrite Hf.
Qed.

Lemma ids_upsert (new : Row) (db : Table) :
  ids (upsertRow new db) =
  if existsb (hasId (r_id new)) db then ids db else ids db ++ [r_id new].
Proof.
  unfold upsertRow, ids. destruct (existsb (hasId (r_id new)) db).
  - rewrite List.map_map. apply List.map_ext. intros a.
    now destruct (hasId (r_id new) a).
  - now rewrite List.map_app.
Qed.

(** The PRIMARY KEY stays a key. *)
Lemma NoDup_upsert (new : Row) (db : Table) :
  NoDup (ids db) -> NoDup (ids (upsertRow new db)).
Proof.
  intros Hnd. rewrite ids_upsert.
  destruct (existsb (hasId (r_id new)) db) eqn:Hex; [exact Hnd|].
  apply existsb_hasId_false in Hex.
  apply NoDup_app. split; [exact Hnd|]. split.
  - intros x Hx Hx'. apply list_elem_of_singleton in Hx'. subst x.
    apply Hex. now apply list_elem_of_In.
  - apply NoDup_singleton.
Qed.

Lemma hostInvariant_upsert (new : Row) (db : Table) :
  r_host new <> "" -> hostInvariant db -> hostInvariant (upsertRow new db).
Proof.
  unfold hostInvariant, upsertRow. intros Hnew Hdb.
  destruct (existsb (hasId (r_id new)) db).
  - apply List.Forall_map. eapply List.Forall_impl; [|exact Hdb].
    intros a Ha. now destruct (hasId (r_id new) a).
  - apply List.Forall_app. split; [exact Hdb | now constructor].
Qed.

End Upsert.

Section Batch.

Variable F : Faults.

Lemma sameIdentity_refl (r : Row) : sameIdentity r r.
Proof. unfold sameIdentity. tauto. Qed.

Lemma sameIdentity_trans (a b c : Row) :
  sameIdentity a b -> sameIdentity b c -> sameIdentity a c.
Proof. unfold sameIdentity. intuition congruence. Qed.

Lemma sameIdentity_setCounters (r : Row) (up down : Z) :
  sameIdentity r (setCounters r up down).
Proof. unfold sameIdentity. simpl. tauto. Qed.

Lemma execUpsert_Some (n : nat) (c : Connection) (tx tx1 : Table) :
  execUpsert F n c tx = Some tx1 -> tx1 = upsertRow (rowOfConnection c) tx.
Proof.
  unfold execUpsert.
  destruct (F (SExec n) || negb (bindable (Upload c))
            || negb (bindable (Download c))); congruence.
Qed.

(** One statement keeps the identity of every stored row. *)
Lemma execUpsert_frame (n : nat) (c : Connection) (tx tx1 : Table)
    (id : string) (r : Row) :
  execUpsert F n c tx = Some tx1 -> findRow id tx = Some r ->
  exists r1, findRow id tx1 = Some r1 /\ sameIdentity r r1.
Proof.
  intros ->%execUpsert_Some Hr.
  destruct (String.eqb_spec id (ID c)) as [-> | Hne].
  - change (ID c) with (r_id (rowOfConnection c)).
    rewrite findRow_upsert_same. simpl r_id. rewrite Hr.
    eexists. split; [reflexivity | apply sameIdentity_setCounters].
  - rewrite findRow_upsert_other by exact Hne.
    exists r. split; [exact Hr | apply sameIdentity_refl].
Qed.

Lemma upsertLoop_frame (conns : list Connection) :
  forall n tx tx' id r,
    upsertLoop F n conns tx = inr tx' -> findRow id tx = Some r ->
    exists r', findRow id tx' = Some r' /\ sameIdentity r r'.
Proof.
  induction conns as [|c rest IH]; intros n tx tx' id r Hloop Hr; simpl in Hloop.
  - injection Hloop as <-. exists r. split; [exact Hr | apply sameIdentity_refl].
  - destruct (Host (Meta c) =? "")%string; [eauto|].
    destruct (execUpsert F n c tx) as [tx1|] eqn:Hexec; [|discriminate].
    destruct (execUpsert_frame _ _ _ _ _ _ Hexec Hr) as (r1 & Hr1 & Hs1).
    destruct (IH _ _ _ _ _ Hloop Hr1) as (r' & Hr' & Hs').
    exists r'. split; [exact Hr' | eapply sameIdentity_trans; eauto].
Qed.

(** An id for which the batch holds no record with a host is not touched. *)
Lemma upsertLoop_untouched (conns : list Connection) :
  forall n tx tx' id,
    upsertLoop F n conns tx = inr tx' ->
    (forall c, In c conns -> ID c = id -> Host (Meta c) = "") ->
    findRow id tx' = findRow id tx.
Proof.
  induction conns as [|c rest IH]; intros n tx tx' id Hloop Hskip; simpl in Hloop.
  - now injection Hloop as <-.
  - destruct (String.eqb_spec (Host (Meta c)) "") as [Hh|Hh].
    + eapply IH; [exact Hloop|]. intros c' Hin. apply Hskip. now right.
    + destruct (execUpsert F n c tx) as [tx1|] eqn:Hexec; [|discriminate].
      apply execUpsert_Some in Hexec. subst tx1.
      rewrite (IH _ _ _ id Hloop) by (intros c' Hin; apply Hskip; now right).
      apply findRow_upsert_other. simpl. intros ->.
      apply Hh. apply Hskip; [now left | reflexivity].
Qed.

(** What a record of the batch leaves under its id, when no other
    record of the batch shares the id. *)
Lemma upsertLoop_written (conns : list Connection) :
  forall n tx tx' c,
    upsertLoop F n conns tx = inr tx' ->
    NoDup (List.map ID conns) -> In c conns -> Host (Meta c) <> "" ->
    findRow (ID c) tx' =
    Some match findRow (ID c) tx with
         | Some old => setCounters old (Upload c) (Download c)
         | None => rowOfConnection c
         end.
Proof.
  induction conns as [|a rest IH]; intros n tx tx' c Hloop Hnd Hin Hh;
    simpl in Hloop; [destruct Hin|].
  simpl in Hnd. apply NoDup_cons in Hnd as [Hnotin Hnd].
  destruct Hin as [-> | Hin].
  - destruct (String.eqb_spec (Host (Meta c)) "") as [E|_]; [contradiction|].
    destruct (execUpsert F n c tx) as [tx1|] eqn:Hexec; [|discriminate].
    apply execUpsert_Some in Hexec. subst tx1.
    rewrite (upsertLoop_untouched _ _ _ _ (ID c) Hloop).
    + change (ID c) with (r_id (rowOfConnection c)) at 1.
      rewrite findRow_upsert_same. simpl r_id.
      now destruct (findRow (ID c) tx).
    + intros c' Hc' Heq. exfalso. apply Hnotin.
      apply list_elem_of_In. rewrite <- Heq. now apply List.in_map.
  - assert (Hne : ID c <> ID a).
    { intros Heq. apply Hnotin. apply list_elem_of_In. rewrite <- Heq.
      now apply List.in_map. }
    destruct (String.eqb_spec (Host (Meta a)) "") as [E|E].
    + now apply (IH n).
    + destruct (execUpsert F n a tx) as [tx1|] eqn:Hexec; [|discriminate].
      apply execUpsert_Some in Hexec. subst tx1.
      rewrite (IH _ _ _ c Hloop Hnd Hin Hh).
      now rewrite findRow_upsert_other by exact Hne.
Qed.

Lemma upsertLoop_NoDup (conns : list Connection) :
  forall n tx tx',
    upsertLoop F n conns tx = inr tx' -> NoDup (ids tx) -> NoDup (ids tx').
Proof.
  induction conns as [|c rest IH]; intros n tx tx' Hloop Hnd; simpl in Hloop.
  - now injection Hloop as <-.
  - destruct (Host (Meta c) =? "")%string; [eauto|].
    destruct (execUpsert F n c tx) as [tx1|] eqn:Hexec; [|discriminate].
    apply execUpsert_Some in Hexec. subst tx1.
    eapply IH; [exact Hloop|]. now apply NoDup_upsert.
Qed.

Lemma upsertLoop_hostInvariant (conns : list Connection) :
  forall n tx tx',
    upsertLoop F n conns tx = inr tx' -> hostInvariant tx -> hostInvariant tx'.
Proof.
  induction conns as [|c rest IH]; intros n tx tx' Hloop Hinv; simpl in Hloop.
  - now injection Hloop as <-.
  - destruct (String.eqb_spec (Host (Meta c)) "") as [E|E]; [eauto|].
    destruct (execUpsert F n c tx) as [tx1|] eqn:Hexec; [|discriminate].
    apply execUpsert_Some in Hexec. subst tx1.
    eapply IH; [exact Hloop|]. now apply hostInvariant_upsert.
Qed.

(** A record without a host takes no part in the batch: no statement is
    executed for it and no error is raised. *)
Lemma upsertLoop_discards (pre : list Connection) (c : Connection)
    (post : list Connection) :
  Host (Meta c) = "" ->
  forall n tx,
    upsertLoop F n (pre ++ c :: post) tx = upsertLoop F n (pre ++ post) tx.
Proof.
  intros Hc. induction pre as [|a pre IH]; intros n tx; simpl.
  - now rewrite Hc.
  - destruct (Host (Meta a) =? "")%string; [apply IH|].
    destruct (execUpsert F n a tx); [apply IH | reflexivity].
Qed.

Lemma BulkUpsert_error (db : Table) (conns : list Connection) (e : DBError) :
  fst (BulkUpsertConnections F db conns) = Some e ->
  snd (BulkUpsertConnections F db conns) = db.
Proof.
  unfold BulkUpsertConnections.
  destruct (F SBegin); [reflexivity|]. destruct (F SPrepare); [reflexivity|].
  destruct (upsertLoop F 0 conns db); [reflexivity|].
  destruct (F SCommit); [reflexivity | discriminate].
Qed.

Lemma BulkUpsert_success (db : Table) (conns : list Connection) :
  fst (BulkUpsertConnections F db conns) = None ->
  upsertLoop F 0 conns db = inr (snd (BulkUpsertConnections F db conns)).
Proof.
  unfold BulkUpsertConnections.
  destruct (F SBegin); [discriminate|]. destruct (F SPrepare); [discriminate|].
  destruct (upsertLoop F 0 conns db); [discriminate|].
  destruct (F SCommit); [discriminate | reflexivity].
Qed.

Lemma BulkUpsert_cases (db : Table) (conns : list Connection) :
  (exists e, BulkUpsertConnections F db conns = (Some e, db))
  \/ (exists tx, BulkUpsertConnections F db conns = (None, tx)
                 /\ upsertLoop F 0 conns db = inr tx).
Proof.
  unfold BulkUpsertConnections.
  destruct (F SBegin); [left; eauto|]. destruct (F SPrepare); [left; eauto|].
  destruct (upsertLoop F 0 conns db); [left; eauto|].
  destruct (F SCommit); [left; eauto | right; eauto].
Qed.

Lemma BulkUpsert_hostInvariant (db : Table) (conns : list Connection) :
  hostInvariant db -> hostInvariant (snd (BulkUpsertConnections F db conns)).
Proof.
  intros Hinv.
  destruct (BulkUpsert_cases db conns) as [[e ->] | (tx & -> & Hloop)]; simpl.
  - exact Hinv.
  - eapply upsertLoop_hostInvariant; eauto.
Qed.

Lemma BulkUpsert_NoDup (db : Table) (conns : list Connection) :
  NoDup (ids db) -> NoDup (ids (snd (BulkUpsertConnections F db conns))).
Proof.
  intros Hnd.
  destruct (BulkUpsert_cases db conns) as [[e ->] | (tx & -> & Hloop)]; simpl.
  - exact Hnd.
  - eapply upsertLoop_NoDup; eauto.
Qed.

End Batch.

(* ===================================================================== *)
(** * The live cache and writeCacheToDB                                   *)
(* ===================================================================== *)

Section LiveCache.

Lemma In_Range (cache : Cache) (c : Connection) :
  In c (Range cache) <-> exists k, cache !! k = Some c.
Proof.
  unfold Range. rewrite in_map_iff. split.
  - intros ([k c'] & <- & Hin). exists k.
    now apply elem_of_map_to_list, list_elem_of_In.
  - intros [k Hk]. exists (k, c). split; [reflexivity|].
    now apply list_elem_of_In, elem_of_map_to_list.
Qed.

Lemma Range_ids (cache : Cache) :
  keyedById cache -> List.map ID (Range cache) = List.map fst (map_to_list cache).
Proof.
  intros Hk. unfold Range. rewrite List.map_map. apply List.map_ext_in.
  intros [k c] Hin. simpl. apply Hk.
  now apply elem_of_map_to_list, list_elem_of_In.
Qed.

Lemma Range_NoDup (cache : Cache) :
  keyedById cache -> NoDup (List.map ID (Range cache)).
Proof.
  intros Hk. rewrite Range_ids by exact Hk. apply NoDup_fst_map_to_list.
Qed.

Lemma Range_nonempty (cache : Cache) (k : string) (c : Connection) :
  cache !! k = Some c -> Nat.eqb (List.length (Range cache)) 0 = false.
Proof.
  intros Hk. assert (Hin : In c (Range cache)) by (apply In_Range; eauto).
  destruct (Range cache); [destruct Hin | reflexivity].
Qed.

Lemma keyedById_empty : keyedById ∅.
Proof. intros k c H. rewrite lookup_empty in H. discriminate. Qed.

Lemma keyedById_Store (cache : Cache) (c : Connection) :
  keyedById cache -> keyedById (Store (ID c) c cache).
Proof.
  intros Hk k c'. unfold Store.
  destruct (decide (ID c = k)) as [<- | Hne].
  - rewrite lookup_insert_eq. congruence.
  - rewrite lookup_insert_ne by exact Hne. apply Hk.
Qed.

Lemma keyedById_storeAll (conns : list Connection) :
  forall cache, keyedById cache -> keyedById (storeAll conns cache).
Proof.
  unfold storeAll. induction conns as [|c rest IH]; intros cache Hk; simpl.
  - exact Hk.
  - apply IH. now apply keyedById_Store.
Qed.

Lemma lookup_delete_all (l : list (string * Connection)) (m : Cache) (k : string) :
  fold_right (fun kv m => delete (fst kv) m) m l !! k =
  if decide (k ∈ List.map fst l) then None else m !! k.
Proof.
  induction l as [|[k' v] l IH]; cbn [fold_right List.map fst].
  - destruct (decide (k ∈ [])) as [i|_]; [|reflexivity].
    now apply elem_of_nil in i.
  - destruct (decide (k' = k)) as [-> | Hne].
    + rewrite lookup_delete_eq.
      destruct (decide (k ∈ k :: List.map fst l)) as [_|n]; [reflexivity|].
      exfalso. apply n. apply elem_of_cons. now left.
    + rewrite lookup_delete_ne by exact Hne. rewrite IH.
      destruct (decide (k ∈ List.map fst l)) as [i|n];
        destruct (decide (k ∈ k' :: List.map fst l)) as [i'|n']; try reflexivity.
      * exfalso. apply n'. apply elem_of_cons. now right.
      * exfalso. apply elem_of_cons in i' as [E|i']; [congruence | contradiction].
Qed.

(** Deleting every key the second [Range] visits empties the map. *)
Lemma clearCache_empty (cache : Cache) : clearCache cache = ∅.
Proof.
  apply map_eq. intros k. unfold clearCache.
  rewrite lookup_delete_all, lookup_empty.
  destruct (decide (k ∈ List.map fst (map_to_list cache))) as [_|n]; [reflexivity|].
  destruct (cache !! k) as [c|] eqn:Hc; [|reflexivity].
  exfalso. apply n. apply list_elem_of_In, in_map_iff.
  exists (k, c). split; [reflexivity|].
  now apply list_elem_of_In, elem_of_map_to_list.
Qed.

Variable F : Faults.

(** The three ways a flush ends. *)
Lemma writeCacheToDB_cases (db : Table) (cache : Cache) :
  let n := List.length (Range cache) in
  (Range cache = []
   /\ writeCacheToDB F db cache = mkFlushResult db cache [LogCacheEmpty])
  \/ (exists e,
        BulkUpsertConnections F db (Range cache) = (Some e, db)
        /\ writeCacheToDB F db cache
           = mkFlushResult db cache [LogPreparing n; LogWriteFailed e])
  \/ (exists tx,
        BulkUpsertConnections F db (Range cache) = (None, tx)
        /\ upsertLoop F 0 (Range cache) db = inr tx
        /\ writeCacheToDB F db cache
           = mkFlushResult tx ∅ [LogPreparing n; LogWriteOk]).
Proof.
  intros n. unfold writeCacheToDB. fold n.
  destruct (Range cache) as [|c rest] eqn:HR.
  - left. split; reflexivity.
  - right. subst n. simpl Nat.eqb.
    destruct (BulkUpsert_cases F db (c :: rest)) as [[e He] | (tx & He & Hloop)];
      rewrite He.
    + left. exists e. split; reflexivity.
    + right. exists tx. split; [reflexivity|]. split; [exact Hloop|].
      now rewrite clearCache_empty.
Qed.

Lemma flushSucceeded_inv (db : Table) (cache : Cache) :
  flushSucceeded (writeCacheToDB F db cache) ->
  exists tx,
    upsertLoop F 0 (Range cache) db = inr tx
    /\ writeCacheToDB F db cache
       = mkFlushResult tx ∅ [LogPreparing (List.length (Range cache)); LogWriteOk].
Proof.
  unfold flushSucceeded.
  destruct (writeCacheToDB_cases db cache)
    as [[_ ->] | [(e & _ & ->) | (tx & _ & Hloop & ->)]]; simpl.
  - intros [H|[]]; discriminate H.
  - intros [H|[H|[]]]; discriminate H.
  - intros _. eauto.
Qed.

Lemma keyedById_after_flush (db : Table) (cache : Cache) :
  keyedById cache -> keyedById (f_cache (writeCacheToDB F db cache)).
Proof.
  intros Hk.
  destruct (writeCacheToDB_cases db cache)
    as [[_ ->] | [(e & _ & ->) | (tx & _ & Hloop & ->)]]; simpl;
    auto using keyedById_empty.
Qed.

(** A successful flush writes the counters of the record cached under
    an id into the row of that id. *)
Lemma flush_writes (db : Table) (cache : Cache) (c : Connection) :
  keyedById cache -> cache !! ID c = Some c -> Host (Meta c) <> "" ->
  flushSucceeded (writeCacheToDB F db cache) ->
  exists r, findRow (ID c) (f_db (writeCacheToDB F db cache)) = Some r
            /\ r_upload r = Upload c /\ r_download r = Download c.
Proof.
  intros Hk Hc Hh Hok.
  destruct (flushSucceeded_inv db cache Hok) as (tx & Hloop & ->). simpl.
  assert (Hin : In c (Range cache)) by (apply In_Range; eauto).
  rewrite (upsertLoop_written F _ _ _ _ c Hloop (Range_NoDup _ Hk) Hin Hh).
  eexists. split; [reflexivity|].
  destruct (findRow (ID c) db); simpl; split; reflexivity.
Qed.

End LiveCache.

(* ===================================================================== *)
(** * Claims about the cache and the flush                                *)
(* ===================================================================== *)

(** C1 (overwrite, not add).  A connection id is observed with totals
    [(u1,d1)] and then [(u2,d2)], the second time with a host.  In the
    cache the second record replaces the first.  After a flush that
    commits, whether one flush follows both observations or a flush of any
    outcome also ran between them, the row stored under the id carries
    [(u2,d2)], and so does not carry [(u1+u2, d1+d2)] when the first
    totals were not zero. *)
Theorem overwrite_not_add (F F' : Faults) (db : Table) (cache : Cache)
    (c1 c2 : Connection) :
  keyedById cache -> ID c1 = ID c2 -> Host (Meta c2) <> "" ->
  let cache1 := Store (ID c1) c1 cache in
  let cache2 := Store (ID c2) c2 cache1 in
  let res := writeCacheToDB F db cache2 in
  let res1 := writeCacheToDB F db cache1 in
  let res2 := writeCacheToDB F' (f_db res1) (Store (ID c2) c2 (f_cache res1)) in
  cache2 !! ID c2 = Some c2
  /\ (flushSucceeded res ->
      persisted (f_db res) (ID c2) (Upload c2) (Download c2)
      /\ (Upload c1 <> 0%Z ->
          ~ persisted (f_db res) (ID c2) (Upload c1 + Upload c2)
                      (Download c1 + Download c2)))
  /\ (flushSucceeded res2 ->
      persisted (f_db res2) (ID c2) (Upload c2) (Download c2)
      /\ (Upload c1 <> 0%Z ->
          ~ persisted (f_db res2) (ID c2) (Upload c1 + Upload c2)
                      (Download c1 + Download c2))).
Proof.
  intros Hk Hid Hh cache1 cache2 res res1 res2.
  assert (Hk1 : keyedById cache1) by now apply keyedById_Store.
  assert (Hk2 : keyedById cache2) by now apply keyedById_Store.
  assert (Hsum : forall db', persisted db' (ID c2) (Upload c2) (Download c2) ->
            Upload c1 <> 0%Z ->
            ~ persisted db' (ID c2) (Upload c1 + Upload c2)
                        (Download c1 + Download c2)).
  { intros db' (r & Hr & Hu & _) Hnz (r' & Hr' & Hu' & _).
    rewrite Hr in Hr'. injection Hr' as <-. lia. }
  split; [apply lookup_insert_eq|]. split.
  - intros Hok.
    assert (Hp : persisted (f_db res) (ID c2) (Upload c2) (Download c2)).
    { apply flush_writes; auto. apply lookup_insert_eq. }
    split; [exact Hp | now apply Hsum].
  - intros Hok.
    assert (Hp : persisted (f_db res2) (ID c2) (Upload c2) (Download c2)).
    { apply flush_writes; auto.
      - apply keyedById_Store. now apply keyedById_after_flush.
      - apply lookup_insert_eq. }
    split; [exact Hp | now apply Hsum].
Qed.

Lemma overwrite_not_add_witness :
  persisted
    (f_db (writeCacheToDB noFaults []
             (Store "a" (sampleConn "a" "a.com" "" 15 25 0)
                (Store "a" (sampleConn "a" "a.com" "" 10 20 0) ∅))))
    "a" 15 25.
Proof.
  refine (proj1 (proj1 (proj2
    (overwrite_not_add noFaults noFaults [] ∅
       (sampleConn "a" "a.com" "" 10 20 0) (sampleConn "a" "a.com" "" 15 25 0)
       keyedById_empty eq_refl _)) _)).
  - discriminate.
  - vm_compute. right. left. reflexivity.
Defined.

(** C7 (upsert frame).  When the batched upsert commits, every row that
    was stored before is still stored under its id with the same
    sourceIP, host, start and chain.  For a record of the batch that has a
    host (the ids of a batch being distinct, as the cache yields them): if
    its id was stored, the row afterwards is the old row with only upload
    and download replaced by the record's; if its id was absent, the row
    afterwards is the full new row built from the record.  Ids for which
    the batch has no record with a host keep their row as it was. *)
Theorem upsert_frame (F : Faults) (db : Table) (conns : list Connection) :
  fst (BulkUpsertConnections F db conns) = None ->
  NoDup (List.map ID conns) ->
  let db' := snd (BulkUpsertConnections F db conns) in
  (forall id r, findRow id db = Some r ->
     exists r', findRow id db' = Some r' /\ sameIdentity r r')
  /\ (forall c old, In c conns -> Host (Meta c) <> "" ->
        findRow (ID c) db = Some old ->
        findRow (ID c) db' = Some (setCounters old (Upload c) (Download c)))
  /\ (forall c, In c conns -> Host (Meta c) <> "" ->
        findRow (ID c) db = None ->
        findRow (ID c) db' = Some (rowOfConnection c))
  /\ (forall id, (forall c, In c conns -> ID c = id -> Host (Meta c) = "") ->
        findRow id db' = findRow id db).
Proof.
  intros Hok Hnd db'. pose proof (BulkUpsert_success F db conns Hok) as Hloop.
  fold db' in Hloop.
  split; [|split; [|split]].
  - intros id r Hr. eapply upsertLoop_frame; eauto.
  - intros c old Hin Hh Hold.
    rewrite (upsertLoop_written F _ _ _ _ c Hloop Hnd Hin Hh). now rewrite Hold.
  - intros c Hin Hh Hnone.
    rewrite (upsertLoop_written F _ _ _ _ c Hloop Hnd Hin Hh). now rewrite Hnone.
  - intros id Hskip. eapply upsertLoop_untouched; eauto.
Qed.

Lemma upsert_frame_witness :
  findRow "x"
    (snd (BulkUpsertConnections noFaults [sampleRow "x" "a.com" 10 20 7]
            [sampleConn "x" "other.org" "" 11 22 9;
             sampleConn "y" "b.com" "" 1 2 9]))
  = Some (setCounters (sampleRow "x" "a.com" 10 20 7) 11 22).
Proof.
  refine (proj1 (proj2
    (upsert_frame noFaults [sampleRow "x" "a.com" 10 20 7]
       [sampleConn "x" "other.org" "" 11 22 9; sampleConn "y" "b.com" "" 1 2 9]
       eq_refl _))
    (sampleConn "x" "other.org" "" 11 22 9) (sampleRow "x" "a.com" 10 20 7)
    _ _ eq_refl).
  - simpl. apply NoDup_cons. split; [|apply NoDup_singleton].
    intros H. apply list_elem_of_singleton in H. discriminate H.
  - now left.
  - discriminate.
Defined.

(** C3, as stated, fails: the cache holds three records and the second
    [Exec] of the transaction fails; the store is left empty, an error is
    logged, and all three records are still in the cache. *)
Lemma failed_flush_keeps_records :
  let res := writeCacheToDB (failExec 1) [] threeRecordCache in
  f_db res = []
  /\ (exists e, f_log res = [LogPreparing 3; LogWriteFailed e])
  /\ f_cache res !! "a" = Some (sampleConn "a" "a.com" "" 10 20 0)
  /\ f_cache res !! "b" = Some (sampleConn "b" "b.com" "" 1 2 0)
  /\ f_cache res !! "c" = Some (sampleConn "c" "c.com" "" 3 4 0)
  /\ ~ (forall c, In c threeRecords -> f_cache res !! ID c = None).
Proof.
  cbv zeta.
  split; [vm_compute; reflexivity|].
  split; [eexists; vm_compute; reflexivity|].
  split; [vm_compute; reflexivity|].
  split; [vm_compute; reflexivity|].
  split; [vm_compute; reflexivity|].
  intros H. specialize (H (sampleConn "a" "a.com" "" 10 20 0) (or_introl eq_refl)).
  vm_compute in H. discriminate H.
Qed.

(** C3 (failed flush), amended.  When the cache is not empty and the
    batched transaction fails at any point, the whole batch is rolled
    back: the Primary Store is what it was before the flush, the failure
    is logged, and the cache is left exactly as it was, every collected
    record still in it for the next flush. *)
Theorem failed_flush_rolls_back (F : Faults) (db : Table) (cache : Cache)
    (e : DBError) :
  Range cache <> [] ->
  fst (BulkUpsertConnections F db (Range cache)) = Some e ->
  let res := writeCacheToDB F db cache in
  f_db res = db
  /\ f_cache res = cache
  /\ f_log res = [LogPreparing (List.length (Range cache)); LogWriteFailed e]
  /\ (forall c, In c (Range cache) -> exists k, f_cache res !! k = Some c).
Proof.
  intros Hne Herr res.
  assert (Hres : res = mkFlushResult db cache
                   [LogPreparing (List.length (Range cache)); LogWriteFailed e]).
  { subst res.
    destruct (writeCacheToDB_cases F db cache)
      as [[Hnil _] | [(e' & He' & ->) | (tx & He' & _ & _)]].
    - contradiction.
    - rewrite He' in Herr. simpl in Herr. congruence.
    - rewrite He' in Herr. discriminate Herr. }
  rewrite Hres. simpl. repeat split; try reflexivity.
  intros c Hin. now apply In_Range.
Qed.

Lemma failed_flush_rolls_back_witness :
  let res := writeCacheToDB (failExec 1) [] threeRecordCache in
  f_db res = []
  /\ f_cache res = threeRecordCache
  /\ f_log res = [LogPreparing (List.length (Range threeRecordCache));
                  LogWriteFailed (ErrExec "a")]
  /\ (forall c, In c (Range threeRecordCache) -> exists k, f_cache res !! k = Some c).
Proof.
  refine (failed_flush_rolls_back (failExec 1) [] threeRecordCache (ErrExec "a") _ _).
  - vm_compute. discriminate.
  - vm_compute. reflexivity.
Defined.

(* ===================================================================== *)
(** * The flusher interleaved with the poller                             *)
(* ===================================================================== *)

Section Interleaving.

Variable F : Faults.

Lemma flusherStep_collect (db : Table) (cache : Cache) (log : list LogEvent) :
  Range cache <> [] ->
  flusherStep F (mkSys cache db PhCollect [] log)
  = mkSys cache db (PhWrite (Range cache)) (Range cache)
      (log ++ [LogPreparing (List.length (Range cache))]).
Proof.
  intros Hne. unfold flusherStep. cbn [s_phase s_cache s_db s_log s_saved].
  destruct (Range cache); [contradiction | reflexivity].
Qed.

Lemma flusherStep_collect_empty (db : Table) (cache : Cache) (log : list LogEvent) :
  Range cache = [] ->
  flusherStep F (mkSys cache db PhCollect [] log)
  = mkSys cache db PhDone [] (log ++ [LogCacheEmpty]).
Proof.
  intros He. unfold flusherStep. cbn [s_phase s_cache s_db s_log s_saved].
  now rewrite He.
Qed.

Lemma flusherStep_write (db : Table) (cache : Cache)
    (conns saved : list Connection) (log : list LogEvent) :
  flusherStep F (mkSys cache db (PhWrite conns) saved log)
  = match BulkUpsertConnections F db conns with
    | (Some e, db') => mkSys cache db' PhDone saved (log ++ [LogWriteFailed e])
    | (None, db') => mkSys cache db' PhClear saved (log ++ [LogWriteOk])
    end.
Proof. reflexivity. Qed.

Lemma flusherStep_clear (db : Table) (cache : Cache)
    (saved : list Connection) (log : list LogEvent) :
  flusherStep F (mkSys cache db PhClear saved log)
  = mkSys (clearCache cache) db PhDone saved log.
Proof. reflexivity. Qed.

Lemma flusherStep_done (s : Sys) : s_phase s = PhDone -> flusherStep F s = s.
Proof. intros H. unfold flusherStep. now rewrite H. Qed.

(** Run without interruption, the three steps are [writeCacheToDB]. *)
Lemma run_flushSteps (db : Table) (cache : Cache) :
  let s := run F flushSteps (startFlush db cache) in
  let res := writeCacheToDB F db cache in
  s_db s = f_db res /\ s_cache s = f_cache res /\ s_log s = f_log res.
Proof.
  unfold run, flushSteps, startFlush. cbn [fold_left act].
  unfold writeCacheToDB.
  destruct (Range cache) as [|c rest] eqn:HR.
  - rewrite flusherStep_collect_empty by exact HR.
    rewrite !flusherStep_done by reflexivity. simpl. auto.
  - rewrite flusherStep_collect by (rewrite HR; discriminate).
    rewrite HR. simpl Nat.eqb. cbv iota.
    rewrite flusherStep_write.
    destruct (BulkUpsertConnections F db (c :: rest)) as [[e|] db'].
    + rewrite flusherStep_done by reflexivity. simpl. auto.
    + rewrite flusherStep_clear. simpl. auto.
Qed.

(** A [Store] that comes before the collecting pass is in the drain
    result. *)
Lemma store_before_flush (db : Table) (cache : Cache) (R : Connection) :
  In R (s_saved (run F (ActStore R :: flushSteps) (startFlush db cache))).
Proof.
  unfold run, flushSteps, startFlush. cbn [fold_left act].
  cbn [s_phase s_cache s_db s_log s_saved].
  set (cache1 := Store (ID R) R cache).
  assert (Hin : In R (Range cache1)).
  { apply In_Range. exists (ID R). apply lookup_insert_eq. }
  assert (Hne : Range cache1 <> []).
  { intros E. rewrite E in Hin. destruct Hin. }
  rewrite flusherStep_collect by exact Hne.
  rewrite flusherStep_write.
  destruct (BulkUpsertConnections F db (Range cache1)) as [[e|] db'].
  - rewrite flusherStep_done by reflexivity. exact Hin.
  - rewrite flusherStep_clear. exact Hin.
Qed.

(** A [Store] that comes after the clearing pass stays in the cache. *)
Lemma store_after_flush (db : Table) (cache : Cache) (R : Connection) :
  s_cache (run F (flushSteps ++ [ActStore R]) (startFlush db cache)) !! ID R
  = Some R.
Proof.
  unfold run. rewrite fold_left_app.
  set (s0 := fold_left (act F) flushSteps (startFlush db cache)).
  cbn [fold_left act s_cache]. apply lookup_insert_eq.
Qed.

(** A [Store] that lands after the collecting pass is not in the drain
    result, and the clearing pass of a flush that commits deletes it. *)
Lemma store_during_flush (db : Table) (cache : Cache) (R : Connection)
    (schedule : list Action) :
  schedule = [ActFlusher; ActStore R; ActFlusher; ActFlusher]
  \/ schedule = [ActFlusher; ActFlusher; ActStore R; ActFlusher] ->
  Range cache <> [] ->
  let s := run F schedule (startFlush db cache) in
  s_saved s = Range cache /\ (In LogWriteOk (s_log s) -> s_cache s = ∅).
Proof.
  intros Hs Hne. unfold run, startFlush.
  destruct Hs as [-> | ->]; cbn [fold_left act];
    rewrite flusherStep_collect by exact Hne;
    cbn [s_phase s_cache s_db s_log s_saved];
    rewrite flusherStep_write;
    destruct (BulkUpsertConnections F db (Range cache)) as [[e|] db'];
    cbn [s_phase s_cache s_db s_log s_saved];
    try (rewrite flusherStep_done by reflexivity);
    try rewrite flusherStep_clear;
    cbn [s_phase s_cache s_db s_log s_saved];
    (split; [reflexivity|]); simpl.
  - intros [H|[H|[]]]; discriminate H.
  - intros _. apply clearCache_empty.
  - intros [H|[H|[]]]; discriminate H.
  - intros _. apply clearCache_empty.
Qed.

End Interleaving.

(** C4, as stated, fails: the cache holds record [a]; the flusher collects,
    the poller stores record [b], the flusher writes and clears.  Record
    [b] is not in the drain result, not in the store and not in the cache. *)
Lemma put_during_flush_is_lost :
  let R := sampleConn "b" "b.com" "" 1 2 0 in
  let cache := Store "a" (sampleConn "a" "a.com" "" 10 20 0) ∅ in
  let schedule := [ActFlusher; ActStore R; ActFlusher; ActFlusher] in
  let s := run noFaults schedule (startFlush [] cache) in
  ~ notLost noFaults schedule [] cache R
  /\ findRow "b" (s_db s) = None
  /\ s_cache s !! "b" = None
  /\ In LogWriteOk (s_log s).
Proof.
  cbv zeta. split; [|split; [|split]].
  - unfold notLost. vm_compute. intros [[H|[]]|H]; discriminate H.
  - vm_compute. reflexivity.
  - vm_compute. reflexivity.
  - vm_compute. right. left. reflexivity.
Qed.

(** C4 (cache drain), amended.  The flush is not one atomic drain but a
    collecting pass, the database transaction and a clearing pass.  A put
    that is complete before the collecting pass is in the drain result; a
    put made after the clearing pass is in the cache afterwards; run
    without interruption the three steps behave as [writeCacheToDB].  A
    put that lands between the collecting and the clearing pass is not in
    the drain result, and when the flush commits the clearing pass
    deletes it from the cache. *)
Theorem drain_and_put (F : Faults) (db : Table) (cache : Cache) (R : Connection) :
  notLost F (ActStore R :: flushSteps) db cache R
  /\ notLost F (flushSteps ++ [ActStore R]) db cache R
  /\ (let s := run F flushSteps (startFlush db cache) in
      let res := writeCacheToDB F db cache in
      s_db s = f_db res /\ s_cache s = f_cache res /\ s_log s = f_log res)
  /\ (forall schedule,
        schedule = [ActFlusher; ActStore R; ActFlusher; ActFlusher]
        \/ schedule = [ActFlusher; ActFlusher; ActStore R; ActFlusher] ->
        Range cache <> [] ->
        let s := run F schedule (startFlush db cache) in
        s_saved s = Range cache /\ (In LogWriteOk (s_log s) -> s_cache s = ∅)).
Proof.
  split; [left; apply store_before_flush|].
  split; [right; apply store_after_flush|].
  split; [apply run_flushSteps|].
  intros schedule Hs Hne. exact (store_during_flush F db cache R schedule Hs Hne).
Qed.

(* ===================================================================== *)
(** * Grouping and summing                                                *)
(* ===================================================================== *)

Section Grouping.

Variable interval : Z.

Lemma lookupGroup_nil (k : GroupKey) : lookupGroup k [] = None.
Proof. reflexivity. Qed.

Lemma lookupGroup_cons (k k' : GroupKey) (e : Connection)
    (m : list (GroupKey * Connection)) :
  lookupGroup k ((k', e) :: m) = if decide (k' = k) then Some e else lookupGroup k m.
Proof.
  unfold lookupGroup. simpl. destruct (decide (k' = k)) as [E|E].
  - now rewrite bool_decide_eq_true_2.
  - now rewrite bool_decide_eq_false_2.
Qed.

(** [mergedConnections[groupKey] = ...] read back. *)
Lemma lookupGroup_mergeInto (k k' : GroupKey) (c : Connection)
    (m : list (GroupKey * Connection)) :
  lookupGroup k' (mergeInto k c m) =
  if decide (k = k')
  then Some match lookupGroup k m with
            | Some existing => accumulate existing c
            | None => c
            end
  else lookupGroup k' m.
Proof.
  induction m as [|[k0 e] m IH]; simpl.
  - rewrite lookupGroup_cons, lookupGroup_nil. now destruct (decide (k = k')).
  - destruct (decide (k0 = k)) as [-> | Hne]; rewrite !lookupGroup_cons.
    + destruct (decide (k = k')) as [E|E]; [|reflexivity].
      now destruct (decide (k = k)).
    + rewrite IH. destruct (decide (k = k')) as [<- | E].
      * destruct (decide (k0 = k)); [contradiction | reflexivity].
      * reflexivity.
Qed.

Lemma keys_mergeInto (k : GroupKey) (c : Connection)
    (m : list (GroupKey * Connection)) :
  List.map fst (mergeInto k c m) =
  if decide (k ∈ List.map fst m) then List.map fst m else List.map fst m ++ [k].
Proof.
  induction m as [|[k0 e] m IH]; simpl.
  - destruct (decide (k ∈ [])) as [i|_]; [|reflexivity].
    now apply elem_of_nil in i.
  - destruct (decide (k0 = k)) as [-> | Hne]; simpl.
    + destruct (decide (k ∈ k :: List.map fst m)) as [_|n]; [reflexivity|].
      exfalso. apply n. apply elem_of_cons. now left.
    + rewrite IH.
      destruct (decide (k ∈ List.map fst m)) as [i|n];
        destruct (decide (k ∈ k0 :: List.map fst m)) as [i'|n']; try reflexivity.
      * exfalso. apply n'. apply elem_of_cons. now right.
      * exfalso. apply elem_of_cons in i' as [E|i']; [congruence | contradiction].
Qed.

Lemma NoDup_keys_mergeInto (k : GroupKey) (c : Connection)
    (m : list (GroupKey * Connection)) :
  NoDup (List.map fst m) -> NoDup (List.map fst (mergeInto k c m)).
Proof.
  intros Hnd. rewrite keys_mergeInto.
  destruct (decide (k ∈ List.map fst m)) as [i|n]; [exact Hnd|].
  apply NoDup_app. split; [exact Hnd|]. split; [|apply NoDup_singleton].
  intros x Hx Hx'. apply list_elem_of_singleton in Hx'. now subst x.
Qed.

Lemma groupConnections_snoc (conns : list Connection) (c : Connection) :
  groupConnections interval (conns ++ [c])
  = mergeInto (groupKey interval c) c (groupConnections interval conns).
Proof. unfold groupConnections. now rewrite fold_left_app. Qed.

Lemma members_snoc (k : GroupKey) (conns : list Connection) (c : Connection) :
  members interval k (conns ++ [c]) =
  members interval k conns ++ (if decide (groupKey interval c = k) then [c] else []).
Proof.
  unfold members. rewrite List.filter_app. simpl.
  destruct (decide (groupKey interval c = k)) as [E|E].
  - now rewrite bool_decide_eq_true_2.
  - now rewrite bool_decide_eq_false_2.
Qed.

(** The entry of a key is its first member, accumulated with the later
    members in the order they were read; a key without members has no
    entry. *)
Lemma lookupGroup_groupConnections (conns : list Connection) (k : GroupKey) :
  lookupGroup k (groupConnections interval conns) =
  match members interval k conns with
  | [] => None
  | first :: rest => Some (fold_left accumulate rest first)
  end.
Proof.
  induction conns as [|c conns IH] using rev_ind; [reflexivity|].
  rewrite groupConnections_snoc, lookupGroup_mergeInto, members_snoc.
  destruct (decide (groupKey interval c = k)) as [E|E].
  - subst k. rewrite IH.
    destruct (members interval (groupKey interval c) conns) as [|f r]; simpl.
    + reflexivity.
    + now rewrite fold_left_app.
  - rewrite app_nil_r. exact IH.
Qed.

Lemma NoDup_keys_groupConnections (conns : list Connection) :
  NoDup (List.map fst (groupConnections interval conns)).
Proof.
  induction conns as [|c conns IH] using rev_ind; [constructor|].
  rewrite groupConnections_snoc. now apply NoDup_keys_mergeInto.
Qed.

Lemma lookupGroup_None (k : GroupKey) (m : list (GroupKey * Connection)) :
  lookupGroup k m = None <-> ~ In k (List.map fst m).
Proof.
  induction m as [|[k0 e] m IH]; simpl.
  - rewrite lookupGroup_nil. tauto.
  - rewrite lookupGroup_cons. destruct (decide (k0 = k)) as [E|E].
    + split; [discriminate | intros H; exfalso; auto].
    + rewrite IH. tauto.
Qed.

Lemma lookupGroup_In (k : GroupKey) (e : Connection)
    (m : list (GroupKey * Connection)) :
  NoDup (List.map fst m) -> In (k, e) m -> lookupGroup k m = Some e.
Proof.
  induction m as [|[k0 e0] m IH]; simpl; intros Hnd Hin; [destruct Hin|].
  apply NoDup_cons in Hnd as [Hk0 Hnd]. rewrite lookupGroup_cons.
  destruct Hin as [E|Hin].
  - injection E as -> ->. now destruct (decide (k = k)).
  - destruct (decide (k0 = k)) as [->|Hne]; [|now apply IH].
    exfalso. apply Hk0. apply list_elem_of_In.
    change k with (fst (k, e)). now apply List.in_map.
Qed.

Lemma accumulate_fold_fields (rest : list Connection) (first : Connection) :
  let e := fold_left accumulate rest first in
  ID e = ID first /\ Meta e = Meta first /\ Start e = Start first
  /\ Chains e = Chains first
  /\ Upload e = fold_left add64 (List.map Upload rest) (Upload first)
  /\ Download e = fold_left add64 (List.map Download rest) (Download first).
Proof.
  revert first. induction rest as [|c rest IH]; intros first; simpl.
  - repeat split.
  - destruct (IH (accumulate first c)) as (H1 & H2 & H3 & H4 & H5 & H6).
    simpl in *. repeat split; assumption.
Qed.

(** Repeated [+=] on [uint64] is the sum modulo [2^64]. *)
Lemma fold_add64 (l : list Z) (a : Z) :
  (0 <= a < two64)%Z -> fold_left add64 l a = ((a + sumZ l) mod two64)%Z.
Proof.
  revert a. induction l as [|x l IH]; intros a Ha; simpl.
  - rewrite Z.add_0_r. symmetry. now apply Z.mod_small.
  - rewrite IH.
    + unfold add64. rewrite Zplus_mod_idemp_l. f_equal. lia.
    + unfold add64. apply Z.mod_pos_bound. reflexivity.
Qed.

End Grouping.

(* ===================================================================== *)
(** * Buckets                                                             *)
(* ===================================================================== *)

Section Buckets.

Lemma wrap_int64_small (v : Z) :
  (- two63 <= v < two63)%Z -> wrap_int64 v = v.
Proof.
  intros Hv. unfold wrap_int64. rewrite Z.mod_small; unfold two63, two64 in *; lia.
Qed.

Lemma durationOfMinutes_exact (interval : Z) :
  (0 < interval <= maxInterval)%Z ->
  durationOfMinutes interval = (widthSeconds interval * nsPerSecond)%Z.
Proof.
  intros Hi. unfold durationOfMinutes, widthSeconds.
  rewrite wrap_int64_small; unfold nsPerMinute, nsPerSecond, maxInterval, two63 in *; lia.
Qed.

(** For a positive width that fits a [time.Duration] the slot of a
    second is that second rounded down to a multiple of the width,
    counted from the zero time. *)
Lemma timeSlot_floor (interval start : Z) :
  (0 < interval <= maxInterval)%Z ->
  timeSlot interval start
  = (start - (start + unixToInternal) mod widthSeconds interval)%Z.
Proof.
  intros Hi. unfold timeSlot, Truncate.
  rewrite durationOfMinutes_exact by exact Hi.
  assert (Hw : (0 < widthSeconds interval)%Z) by (unfold widthSeconds; lia).
  assert (Hns : (0 < nsPerSecond)%Z) by reflexivity.
  destruct (Z.leb_spec (widthSeconds interval * nsPerSecond) 0) as [Hle|_]; [nia|].
  rewrite Zmult_mod_distr_r.
  rewrite <- Z.mul_sub_distr_r.
  rewrite Z.div_mul by lia. lia.
Qed.

Lemma timeSlot_bucket (interval start : Z) :
  (0 < interval <= maxInterval)%Z ->
  (timeSlot interval start <= start
   < timeSlot interval start + widthSeconds interval)%Z
  /\ ((timeSlot interval start + unixToInternal) mod widthSeconds interval = 0)%Z.
Proof.
  intros Hi. rewrite timeSlot_floor by exact Hi.
  assert (Hw : (0 < widthSeconds interval)%Z) by (unfold widthSeconds; lia).
  pose proof (Z.mod_pos_bound (start + unixToInternal) (widthSeconds interval) Hw).
  split; [lia|].
  replace (start - (start + unixToInternal) mod widthSeconds interval
           + unixToInternal)%Z
    with ((start + unixToInternal)
          - (start + unixToInternal) mod widthSeconds interval)%Z by lia.
  rewrite Zminus_mod_idemp_r. rewrite Z.sub_diag. apply Zmod_0_l.
Qed.

(** A width of zero or less leaves every second its own slot. *)
Lemma timeSlot_nonpositive (interval start : Z) :
  (- maxInterval <= interval <= 0)%Z -> timeSlot interval start = start.
Proof.
  intros Hi. unfold timeSlot, Truncate, durationOfMinutes.
  rewrite wrap_int64_small
    by (unfold nsPerMinute, maxInterval, two63 in *; lia).
  destruct (Z.leb_spec (interval * nsPerMinute) 0) as [_|Hgt];
    [|unfold nsPerMinute in *; lia].
  rewrite Z.div_mul by (unfold nsPerSecond; lia). lia.
Qed.

End Buckets.

(* ===================================================================== *)
(** * The merge transaction                                               *)
(* ===================================================================== *)

Section MergeTransaction.

Variable F : Faults.
Variable uuid : nat -> string.
Variable now : Z.

Lemma filter_filter_and {A : Type} (f g : A -> bool) (l : list A) :
  List.filter f (List.filter g l) = List.filter (fun x => g x && f x) l.
Proof.
  induction l as [|a l IH]; simpl; [reflexivity|].
  destruct (g a); simpl; [destruct (f a)|]; now rewrite IH.
Qed.

Lemma filter_all {A : Type} (f : A -> bool) (l : list A) :
  (forall x, In x l -> f x = true) -> List.filter f l = l.
Proof.
  induction l as [|a l IH]; simpl; intros H; [reflexivity|].
  rewrite (H a) by now left. f_equal. apply IH. intros x Hx. apply H. now right.
Qed.

Lemma filter_none {A : Type} (f : A -> bool) (l : list A) :
  List.filter f l = [] -> forall x, In x l -> f x = false.
Proof.
  induction l as [|a l IH]; simpl; intros H x Hx; [destruct Hx|].
  destruct (f a) eqn:Ha; [discriminate|].
  destruct Hx as [<-|Hx]; [exact Ha | now apply IH].
Qed.

Lemma map_inj_in {A B : Type} (f : A -> B) (l : list A) (a b : A) :
  NoDup (List.map f l) -> In a l -> In b l -> f a = f b -> a = b.
Proof.
  induction l as [|x l IH]; simpl; intros Hnd Ha Hb Heq; [destruct Ha|].
  apply NoDup_cons in Hnd as [Hx Hnd].
  destruct Ha as [<-|Ha], Hb as [<-|Hb]; auto.
  - exfalso. apply Hx. apply list_elem_of_In. rewrite Heq. now apply List.in_map.
  - exfalso. apply Hx. apply list_elem_of_In. rewrite <- Heq. now apply List.in_map.
Qed.

Lemma idIn_true (l : list string) (id : string) : idIn l id = true <-> In id l.
Proof.
  unfold idIn. rewrite existsb_exists. split.
  - intros (x & Hx & E). apply String.eqb_eq in E. now subst.
  - intros H. exists id. split; [exact H | apply String.eqb_refl].
Qed.

(** Rows written by this program are scanned without error. *)
Lemma scanRows_stored (rows : list Row) :
  List.Forall countersStored rows -> scanRows rows = List.map connOfRow rows.
Proof.
  induction 1 as [|r rows [Hu Hd] _ IH]; simpl; [reflexivity|].
  unfold scanRow.
  destruct (Z.ltb_spec (r_upload r) 0); [lia|].
  destruct (Z.ltb_spec (r_download r) 0); [lia|].
  simpl. now rewrite IH.
Qed.

Lemma selectRange_stored (startDate endDate : Z) (db : Table) :
  List.Forall countersStored db ->
  selectRange startDate endDate db
  = List.map connOfRow (List.filter (inRange startDate endDate) db).
Proof.
  intros Hdb. unfold selectRange. apply scanRows_stored.
  apply List.Forall_forall. intros r Hr. apply List.filter_In in Hr as [Hr _].
  revert r Hr. now apply List.Forall_forall.
Qed.

(** A committed pass of the archive loop deleted the rows with the ids
    of the records, kept the others in place, and appended one archive
    row per record. *)
Lemma archiveLoop_inr (conns : list Connection) :
  forall n tx archiveTx tx' archiveTx',
    archiveLoop F now n conns tx archiveTx = inr (tx', archiveTx') ->
    tx' = List.filter (fun r => negb (idIn (List.map ID conns) (r_id r))) tx
    /\ archiveTx' = archiveTx ++ List.map (archiveRowOf now) conns.
Proof.
  induction conns as [|c rest IH]; intros n tx a tx' a' H; simpl in H.
  - injection H as <- <-. split.
    + symmetry. apply filter_all. reflexivity.
    + now rewrite app_nil_r.
  - destruct (F (MArchiveExec n) || negb (bindable (Upload c))
              || negb (bindable (Download c))); [discriminate|].
    destruct (F (MDeleteExec n)); [discriminate|].
    apply IH in H as [-> ->]. split.
    + unfold deleteById. rewrite filter_filter_and.
      apply List.filter_ext. intros r. unfold hasId, idIn. simpl.
      now rewrite negb_orb.
    + now rewrite <- app_assoc.
Qed.

(** A committed pass of the insert loop appended the merged rows, under
    ids that were not in the table. *)
Lemma insertLoop_inr (merged : list (GroupKey * Connection)) :
  forall n tx tx',
    insertLoop F uuid n merged tx = inr tx' ->
    tx' = tx ++ mergedRows uuid n merged
    /\ (NoDup (ids tx) -> NoDup (ids tx')).
Proof.
  induction merged as [|[k e] rest IH]; intros n tx tx' H; simpl in H.
  - injection H as <-. simpl. rewrite app_nil_r. auto.
  - destruct (F (MInsertExec n) || negb (bindable (Upload e))
              || negb (bindable (Download e))); [discriminate|].
    simpl in H. destruct (existsb (hasId (uuid n)) tx) eqn:Hex; [discriminate|].
    apply IH in H as [-> Hnd]. split.
    + simpl. now rewrite <- app_assoc.
    + intros Htx. apply Hnd. unfold ids. rewrite List.map_app.
      apply NoDup_app. split; [exact Htx|]. split; [|apply NoDup_singleton].
      intros x Hx Hx'. apply list_elem_of_singleton in Hx'. subst x.
      apply existsb_hasId_false in Hex. apply Hex. now apply list_elem_of_In.
Qed.

Lemma mergedRows_ids (merged : list (GroupKey * Connection)) :
  forall n m, In m (mergedRows uuid n merged) -> exists i, r_id m = uuid i.
Proof.
  induction merged as [|[k e] rest IH]; intros n m Hm; simpl in Hm; [destruct Hm|].
  destruct Hm as [<-|Hm]; [now exists n | eauto].
Qed.

Lemma mergedRows_entries (merged : list (GroupKey * Connection)) :
  forall n m, In m (mergedRows uuid n merged) ->
    exists i k e, In (k, e) merged /\ m = mergedRowOf (uuid i) e.
Proof.
  induction merged as [|[k e] rest IH]; intros n m Hm; simpl in Hm; [destruct Hm|].
  destruct Hm as [<-|Hm].
  - exists n, k, e. split; [now left | reflexivity].
  - destruct (IH _ _ Hm) as (i & k' & e' & Hin & ->).
    exists i, k', e'. split; [now right | reflexivity].
Qed.

Lemma mergedRows_keys (interval : Z) (merged : list (GroupKey * Connection)) :
  (forall k e, In (k, e) merged -> groupKey interval e = k) ->
  forall n, List.map (rowKey interval) (mergedRows uuid n merged)
            = List.map fst merged.
Proof.
  induction merged as [|[k e] rest IH]; intros Hk n; simpl; [reflexivity|].
  f_equal.
  - apply (Hk k e). now left.
  - apply IH. intros k' e' Hin. apply Hk. now right.
Qed.

(** The stores a run of the merge leaves when its primary commit is not
    refused and no error is returned. *)
Lemma merge_commits (db : Table) (archive : list ArchiveRow)
    (startDate endDate interval : Z) :
  let res := mergeAndArchiveConnections F uuid now db archive
               startDate endDate interval in
  let conns := selectRange startDate endDate db in
  F MCommit = false -> m_err res = None ->
  m_db res = List.filter (fun r => negb (idIn (List.map ID conns) (r_id r))) db
             ++ mergedRows uuid 0 (groupConnections interval conns)
  /\ (NoDup (ids db) -> NoDup (ids (m_db res))).
Proof.
  intros res conns HC Herr. subst res. revert Herr.
  unfold mergeAndArchiveConnections. fold conns.
  destruct (F MQuery); [discriminate|].
  destruct conns as [|c0 rest] eqn:Hconns.
  - simpl. intros _. split; [|auto].
    rewrite app_nil_r. symmetry. apply filter_all. reflexivity.
  - rewrite <- Hconns. replace (Nat.eqb (List.length conns) 0) with false
      by (rewrite Hconns; reflexivity).
    destruct (F MBegin); [discriminate|].
    destruct (F MArchiveBegin); [discriminate|].
    unfold mergeTx.
    destruct (F MPrepareArchive); [discriminate|].
    destruct (F MPrepareDelete); [discriminate|].
    destruct (archiveLoop F now 0 conns db archive) as [e|[tx1 a1]] eqn:Harch;
      [discriminate|].
    destruct (F MPrepareInsert); [discriminate|].
    destruct (insertLoop F uuid 0 (groupConnections interval conns) tx1)
      as [e|tx2] eqn:Hins; [discriminate|].
    rewrite HC. intros _.
    apply archiveLoop_inr in Harch as [-> ->].
    apply insertLoop_inr in Hins as [-> Hnd].
    assert (Hdb : m_db (if F MArchiveCommit
              then {| m_err := None;
                      m_db := List.filter (fun r => negb (idIn (List.map ID conns) (r_id r))) db
                              ++ mergedRows uuid 0 (groupConnections interval conns);
                      m_archive := archive |}
              else {| m_err := None;
                      m_db := List.filter (fun r => negb (idIn (List.map ID conns) (r_id r))) db
                              ++ mergedRows uuid 0 (groupConnections interval conns);
                      m_archive := archive ++ List.map (archiveRowOf now) conns |})
            = List.filter (fun r => negb (idIn (List.map ID conns) (r_id r))) db
              ++ mergedRows uuid 0 (groupConnections interval conns))
      by (destruct (F MArchiveCommit); reflexivity).
    rewrite Hdb. split; [reflexivity|].
    intros Hnddb. apply Hnd.
    unfold ids. apply NoDup_fmap_2_strong with (f := r_id).
    * intros x y Hx Hy Heq.
      apply list_elem_of_In, List.filter_In in Hx as [Hx _].
      apply list_elem_of_In, List.filter_In in Hy as [Hy _].
      eapply (map_inj_in r_id db); eauto.
    * apply NoDup_ListNoDup, List.NoDup_filter, NoDup_ListNoDup.
      eapply NoDup_fmap_1. exact Hnddb.
Qed.

End MergeTransaction.

Section MergeShape.

Variable interval : Z.

Lemma groupKey_connOfRow (r : Row) :
  groupKey interval (connOfRow r) = rowKey interval r.
Proof. reflexivity. Qed.

Lemma members_rows (k : GroupKey) (rows : list Row) :
  members interval k (List.map connOfRow rows)
  = List.map connOfRow (groupOf interval k rows).
Proof.
  unfold members, groupOf. induction rows as [|r rows IH]; simpl; [reflexivity|].
  rewrite groupKey_connOfRow.
  destruct (bool_decide (rowKey interval r = k)); simpl; now rewrite IH.
Qed.

Lemma group_entry (conns : list Connection) (k : GroupKey) (e : Connection) :
  In (k, e) (groupConnections interval conns) ->
  exists first rest,
    members interval k conns = first :: rest
    /\ e = fold_left accumulate rest first.
Proof.
  intros Hin.
  pose proof (lookupGroup_In k e _ (NoDup_keys_groupConnections interval conns) Hin)
    as Hl.
  rewrite lookupGroup_groupConnections in Hl.
  destruct (members interval k conns) as [|first rest]; [discriminate|].
  injection Hl as <-. now exists first, rest.
Qed.

Lemma members_key (conns : list Connection) (k : GroupKey) (c : Connection) :
  In c (members interval k conns) -> In c conns /\ groupKey interval c = k.
Proof.
  unfold members. intros [Hin Hk]%List.filter_In.
  split; [exact Hin | now apply bool_decide_eq_true in Hk].
Qed.

Lemma group_entry_key (conns : list Connection) (k : GroupKey) (e : Connection) :
  In (k, e) (groupConnections interval conns) -> groupKey interval e = k.
Proof.
  intros (first & rest & Hm & ->)%group_entry.
  destruct (accumulate_fold_fields rest first) as (_ & HM & HS & _).
  unfold groupKey. rewrite HM, HS.
  apply (members_key conns k first). rewrite Hm. now left.
Qed.

(** The keys of [mergedConnections] are the keys of the records read. *)
Lemma group_keys (conns : list Connection) (k : GroupKey) :
  In k (List.map fst (groupConnections interval conns))
  <-> In k (List.map (groupKey interval) conns).
Proof.
  split.
  - intros ([k' e] & <- & Hin)%in_map_iff. simpl.
    destruct (group_entry _ _ _ Hin) as (first & rest & Hm & _).
    destruct (members_key conns k' first) as [Hc <-]; [rewrite Hm; now left|].
    now apply List.in_map.
  - intros (c & <- & Hc)%in_map_iff.
    destruct (decide (groupKey interval c
                      ∈ List.map fst (groupConnections interval conns)))
      as [i|n]; [now apply list_elem_of_In|].
    exfalso.
    assert (Hnone : lookupGroup (groupKey interval c)
                      (groupConnections interval conns) = None).
    { apply lookupGroup_None. intros H. apply n. now apply list_elem_of_In. }
    rewrite lookupGroup_groupConnections in Hnone.
    assert (Hin : In c (members interval (groupKey interval c) conns)).
    { unfold members. apply List.filter_In. split; [exact Hc|].
      now apply bool_decide_eq_true. }
    destruct (members interval (groupKey interval c) conns);
      [destruct Hin | discriminate].
Qed.

Variable F : Faults.
Variable uuid : nat -> string.
Variable now : Z.
Variable db : Table.
Variable archive : list ArchiveRow.
Variables startDate endDate : Z.

Let res := mergeAndArchiveConnections F uuid now db archive
             startDate endDate interval.
Let originals := List.filter (inRange startDate endDate) db.

Hypothesis primaryKey : NoDup (ids db).
Hypothesis stored : List.Forall countersStored db.
Hypothesis commits : F MCommit = false.
Hypothesis noError : m_err res = None.

Lemma original_ids (r : Row) :
  In r db ->
  idIn (List.map ID (selectRange startDate endDate db)) (r_id r)
  = inRange startDate endDate r.
Proof.
  intros Hr. rewrite selectRange_stored by exact stored.
  rewrite List.map_map. change (fun x => ID (connOfRow x)) with r_id.
  destruct (inRange startDate endDate r) eqn:Hin.
  - apply idIn_true. apply List.in_map. apply List.filter_In. now split.
  - destruct (idIn _ _) eqn:Hid; [|reflexivity].
    apply idIn_true in Hid. apply in_map_iff in Hid as (r' & Heq & Hr').
    apply List.filter_In in Hr' as [Hr' Hin'].
    assert (r' = r) by (eapply (map_inj_in r_id db); eauto).
    subst r'. congruence.
Qed.

(** The Primary Store after a merge that committed: the rows outside
    the range, in place, followed by one row per entry of
    [mergedConnections]. *)
Lemma merge_store :
  m_db res
  = List.filter (fun r => negb (inRange startDate endDate r)) db
    ++ mergedRows uuid 0 (groupConnections interval (List.map connOfRow originals)).
Proof.
  destruct (merge_commits F uuid now db archive startDate endDate interval
              commits noError) as [Hdb _].
  fold res in Hdb. rewrite Hdb. f_equal.
  - apply List.filter_ext_in. intros r Hr. now rewrite original_ids.
  - now rewrite selectRange_stored by exact stored.
Qed.

Lemma merge_store_NoDup : NoDup (ids (m_db res)).
Proof.
  now apply (merge_commits F uuid now db archive startDate endDate interval
               commits noError).
Qed.

(** Every merged row is built from the first row of its group, in table
    order, with the counters of the later rows of the group added. *)
Lemma merged_row_origin (m : Row) :
  In m (mergedRows uuid 0 (groupConnections interval (List.map connOfRow originals))) ->
  exists i first rest,
    groupOf interval (rowKey interval m) originals = first :: rest
    /\ m = mergedRowOf (uuid i)
             (fold_left accumulate (List.map connOfRow rest) (connOfRow first)).
Proof.
  intros (i & k & e & Hin & ->)%mergedRows_entries.
  pose proof (group_entry_key _ _ _ Hin) as Hk.
  destruct (group_entry _ _ _ Hin) as (first & rest & Hm & ->).
  rewrite members_rows in Hm.
  destruct (groupOf interval k originals) as [|f r] eqn:Hg; [discriminate|].
  simpl in Hm. injection Hm as <- <-.
  exists i, f, r. split; [|reflexivity].
  change (rowKey interval (mergedRowOf (uuid i)
            (fold_left accumulate (List.map connOfRow r) (connOfRow f))))
    with (groupKey interval
            (fold_left accumulate (List.map connOfRow r) (connOfRow f))).
  now rewrite Hk.
Qed.

Lemma merged_row_keys :
  List.map (rowKey interval)
    (mergedRows uuid 0 (groupConnections interval (List.map connOfRow originals)))
  = List.map fst (groupConnections interval (List.map connOfRow originals)).
Proof. apply mergedRows_keys. intros k e. apply group_entry_key. Qed.

Lemma groupOf_stored (k : GroupKey) (r : Row) :
  In r (groupOf interval k originals) -> countersStored r.
Proof.
  intros [Hr _]%List.filter_In. apply List.filter_In in Hr as [Hr _].
  revert r Hr. now apply List.Forall_forall.
Qed.

End MergeShape.

(* ===================================================================== *)
(** * Claims about the merge                                              *)
(* ===================================================================== *)

Lemma pair_snd_eq {A B : Type} (a c : A) (b d : B) : (a, b) = (c, d) -> b = d.
Proof. intros H. now injection H. Qed.

Lemma sumZ_nonneg (l : list Z) :
  List.Forall (fun v => (0 <= v)%Z) l -> (0 <= sumZ l)%Z.
Proof. induction 1 as [|v l Hv _ IH]; simpl; lia. Qed.

(** The counters of a merged row against the rows of its group. *)
Lemma merged_counters (first : Row) (rest : list Row) (id : string) :
  List.Forall countersStored (first :: rest) ->
  let m := mergedRowOf id
             (fold_left accumulate (List.map connOfRow rest) (connOfRow first)) in
  r_upload m = (sumZ (List.map r_upload (first :: rest)) mod two64)%Z
  /\ r_download m = (sumZ (List.map r_download (first :: rest)) mod two64)%Z
  /\ (0 <= sumZ (List.map r_upload (first :: rest)))%Z
  /\ (0 <= sumZ (List.map r_download (first :: rest)))%Z.
Proof.
  intros Hst m.
  destruct (accumulate_fold_fields (List.map connOfRow rest) (connOfRow first))
    as (_ & _ & _ & _ & HU & HD).
  assert (H1 : forall r, In r (first :: rest) -> countersStored r)
    by (now apply List.Forall_forall).
  destruct (H1 first (or_introl eq_refl)) as [Hu Hd].
  subst m. unfold mergedRowOf. cbn [r_upload r_download].
  rewrite HU, HD, !List.map_map. cbn [connOfRow Upload Download].
  rewrite !fold_add64 by (unfold two63, two64 in *; lia).
  repeat split; try reflexivity.
  - apply sumZ_nonneg, List.Forall_map, List.Forall_forall.
    intros r Hr. now destruct (H1 r Hr).
  - apply sumZ_nonneg, List.Forall_map, List.Forall_forall.
    intros r Hr. now destruct (H1 r Hr).
Qed.



Lemma twoRecords_key : NoDup (ids twoRecords).
Proof.
  simpl. apply NoDup_cons. split; [|apply NoDup_singleton].
  intros H. apply list_elem_of_singleton in H. discriminate H.
Defined.

Lemma twoRecords_stored : List.Forall countersStored twoRecords.
Proof.
  repeat constructor; simpl; unfold two63; lia.
Defined.


(** The scenario of the design: records [x] with totals [(10,20)] and [y]
    with [(5,5)], two minutes apart, merged with a width of ten minutes;
    afterwards the store holds one record with totals [(15,25)] and the
    archive holds [x] and [y]. *)
Example merge_two_records :
  let res := mergeAndArchiveConnections noFaults sampleUuid 0 twoRecords []
               1700000000 1700009000 10 in
  List.map (fun r => (r_host r, r_upload r, r_download r)) (m_db res)
    = [("a.com", 15%Z, 25%Z)]
  /\ List.map (fun a => r_id (a_row a)) (m_archive res) = ["x"; "y"].
Proof. cbv zeta. split; vm_compute; reflexivity. Qed.

(** C9, as stated, fails: one stored record that started two minutes into
    its ten-minute bucket; the merged record keeps that start, which is
    not the floor of the bucket. *)
Lemma merged_start_not_floor :
  let db := [sampleRow "y" "a.com" 5 5 1700000520] in
  let res := mergeAndArchiveConnections noFaults sampleUuid 0 db []
               1700000000 1700009000 10 in
  m_err res = None
  /\ List.map r_start (m_db res) = [1700000520%Z]
  /\ timeSlot 10 1700000520 = 1700000400%Z
  /\ List.map r_start (m_db res) <> [timeSlot 10 1700000520].
Proof.
  cbv zeta. split; [vm_compute; reflexivity|].
  split; [vm_compute; reflexivity|].
  split; [vm_compute; reflexivity|].
  vm_compute. discriminate.
Qed.

(** C9 (timestamp of the merged record), amended.  After a merge that
    committed, every merged row carries the start (and the host, the
    source address and the chain) of the first record of its group in
    table order.  That start lies in the bucket of the group: truncating
    it to the bucket width gives the bucket every member of the group
    truncates to, and for a positive width that fits a duration the
    bucket's floor is at most the start and less than one width below
    it.  The start is the floor itself only when that first record
    started on the floor. *)
Theorem merged_start_is_first_member (F : Faults) (uuid : nat -> string)
    (now : Z) (db : Table) (archive : list ArchiveRow)
    (startDate endDate interval : Z) :
  NoDup (ids db) ->
  List.Forall countersStored db ->
  F MCommit = false ->
  m_err (mergeAndArchiveConnections F uuid now db archive
           startDate endDate interval) = None ->
  let res := mergeAndArchiveConnections F uuid now db archive
               startDate endDate interval in
  let originals := List.filter (inRange startDate endDate) db in
  exists newRows,
    m_db res = List.filter (fun r => negb (inRange startDate endDate r)) db ++ newRows
    /\ (forall m, In m newRows ->
          exists first rest,
            groupOf interval (rowKey interval m) originals = first :: rest
            /\ r_start m = r_start first
            /\ r_host m = r_host first
            /\ r_sourceIP m = r_sourceIP first
            /\ r_chain m = Some (default "" (r_chain first))
            /\ (forall member, In member (first :: rest) ->
                  timeSlot interval (r_start member) = timeSlot interval (r_start m))
            /\ ((0 < interval <= maxInterval)%Z ->
                (timeSlot interval (r_start m) <= r_start m
                 < timeSlot interval (r_start m) + widthSeconds interval)%Z)
            /\ (r_start m = timeSlot interval (r_start m)
                <-> r_start first = timeSlot interval (r_start first))).
Proof.
  intros Hkey Hst HC Herr. cbv zeta.
  exists (mergedRows uuid 0
            (groupConnections interval
               (List.map connOfRow (List.filter (inRange startDate endDate) db)))).
  split.
  { exact (merge_store interval F uuid now db archive startDate endDate
             Hkey Hst HC Herr). }
  intros m Hm.
  destruct (merged_row_origin interval uuid db startDate endDate m Hm)
    as (i & first & rest & Hg & ->).
  exists first, rest. split; [exact Hg|].
  destruct (accumulate_fold_fields (List.map connOfRow rest) (connOfRow first))
    as (_ & HM & HS & HCh & _ & _).
  unfold mergedRowOf, firstChain. cbn [r_start r_host r_sourceIP r_chain].
  rewrite HM, HS, HCh. cbn [connOfRow Meta Host SourceIP Start Chains].
  split; [reflexivity|]. split; [reflexivity|].
  split; [reflexivity|]. split; [now destruct (r_chain first)|].
  split; [|split].
  - intros member Hmem. rewrite <- Hg in Hmem.
    unfold groupOf in Hmem. apply List.filter_In in Hmem as [_ Hk].
    apply bool_decide_eq_true in Hk.
    assert (Hf : In first (groupOf interval
                   (rowKey interval (mergedRowOf (uuid i)
                      (fold_left accumulate (List.map connOfRow rest) (connOfRow first))))
                   (List.filter (inRange startDate endDate) db)))
      by (rewrite Hg; now left).
    unfold groupOf in Hf. apply List.filter_In in Hf as [_ Hkf].
    apply bool_decide_eq_true in Hkf.
    rewrite <- Hkf in Hk. unfold rowKey in Hk.
    exact (pair_snd_eq _ _ _ _ Hk).
  - intros Hi. now apply timeSlot_bucket.
  - reflexivity.
Qed.

Lemma merged_start_is_first_member_witness :
  let res := mergeAndArchiveConnections noFaults sampleUuid 0 twoRecords []
               1700000000 1700009000 10 in
  let originals := List.filter (inRange 1700000000 1700009000) twoRecords in
  exists newRows,
    m_db res = List.filter (fun r => negb (inRange 1700000000 1700009000 r)) twoRecords
               ++ newRows
    /\ (forall m, In m newRows ->
          exists first rest,
            groupOf 10 (rowKey 10 m) originals = first :: rest
            /\ r_start m = r_start first
            /\ r_host m = r_host first
            /\ r_sourceIP m = r_sourceIP first
            /\ r_chain m = Some (default "" (r_chain first))
            /\ (forall member, In member (first :: rest) ->
                  timeSlot 10 (r_start member) = timeSlot 10 (r_start m))
            /\ ((0 < 10 <= maxInterval)%Z ->
                (timeSlot 10 (r_start m) <= r_start m
                 < timeSlot 10 (r_start m) + widthSeconds 10)%Z)
            /\ (r_start m = timeSlot 10 (r_start m)
                <-> r_start first = timeSlot 10 (r_start first))).
Proof.
  refine (merged_start_is_first_member noFaults sampleUuid 0 twoRecords []
            1700000000 1700009000 10 twoRecords_key twoRecords_stored eq_refl _).
  vm_compute. reflexivity.
Defined.

(* ===================================================================== *)
(** * LIKE and the host replacement                                       *)
(* ===================================================================== *)

Section Like.

Lemma likeMatch_percent (q s : list ascii) :
  likeMatch ("%"%char :: q) s
  = likeMatch q s
    || match s with [] => false | _ :: s' => likeMatch ("%"%char :: q) s' end.
Proof. destruct s; reflexivity. Qed.

Lemma likeMatch_literal (c : ascii) (q s : list ascii) :
  isWildcard c = false ->
  likeMatch (c :: q) s
  = match s with
    | [] => false
    | d :: s' => Ascii.eqb (asciiLower c) (asciiLower d) && likeMatch q s'
    end.
Proof.
  unfold isWildcard. intros H. apply orb_false_iff in H as [H1 H2].
  simpl. now rewrite H1, H2.
Qed.

(** [%] takes up any prefix. *)
Lemma likeMatch_percent_app (q p s : list ascii) :
  likeMatch q s = true -> likeMatch ("%"%char :: q) (p ++ s) = true.
Proof.
  intros H. induction p as [|a p IH]; simpl app.
  - rewrite likeMatch_percent, H. reflexivity.
  - rewrite (likeMatch_percent q (a :: p ++ s)), IH. apply orb_true_r.
Qed.

Lemma likeMatch_percent_inv (q s : list ascii) :
  likeMatch ("%"%char :: q) s = true ->
  exists p t, s = p ++ t /\ likeMatch q t = true.
Proof.
  induction s as [|a s IH]; rewrite likeMatch_percent; intros H.
  - rewrite orb_false_r in H. now exists [], [].
  - apply orb_true_iff in H as [H|H].
    + now exists [], (a :: s).
    + destruct (IH H) as (p & t & -> & Ht). now exists (a :: p), t.
Qed.

(** Every string matches itself as a pattern. *)
Lemma likeMatch_self (q : list ascii) : likeMatch q q = true.
Proof.
  induction q as [|c q IH]; [reflexivity|].
  destruct (Ascii.eqb_spec c "%"%char) as [-> | Hp].
  - rewrite likeMatch_percent. rewrite (likeMatch_percent q q), IH.
    apply orb_true_r.
  - destruct (Ascii.eqb_spec c "_"%char) as [-> | Hu].
    + simpl. exact IH.
    + rewrite likeMatch_literal.
      * now rewrite Ascii.eqb_refl, IH.
      * unfold isWildcard. apply orb_false_iff.
        split; now apply Ascii.eqb_neq.
Qed.

(** Without wildcards the pattern matches the strings equal to it up to
    the case of ASCII letters. *)
Lemma likeMatch_wildcardFree (q : list ascii) :
  forallb (fun c => negb (isWildcard c)) q = true ->
  forall t, likeMatch q t = true <-> List.map asciiLower t = List.map asciiLower q.
Proof.
  induction q as [|c q IH]; intros Hq t.
  - destruct t; simpl; split; intros H; try reflexivity; discriminate.
  - simpl in Hq. apply andb_true_iff in Hq as [Hc Hq].
    apply negb_true_iff in Hc. rewrite likeMatch_literal by exact Hc.
    destruct t as [|d t]; simpl; [split; discriminate|].
    rewrite andb_true_iff, Ascii.eqb_eq, (IH Hq). split.
    + intros [-> ->]. reflexivity.
    + intros H. injection H as H1 H2. now split.
Qed.

Lemma list_ascii_app (a b : string) :
  list_ascii_of_string (a +:+ b)
  = list_ascii_of_string a ++ list_ascii_of_string b.
Proof.
  induction a as [|x a IH]; [reflexivity|].
  rewrite app_string_cons. simpl. now rewrite IH.
Qed.

Lemma string_of_list_app (a b : list ascii) :
  string_of_list_ascii (a ++ b) = string_of_list_ascii a +:+ string_of_list_ascii b.
Proof.
  induction a as [|x a IH]; [reflexivity|].
  simpl. rewrite app_string_cons. now rewrite IH.
Qed.

Lemma lowerString_eq (t u : string) :
  lowerString t = lowerString u
  <-> List.map asciiLower (list_ascii_of_string t)
      = List.map asciiLower (list_ascii_of_string u).
Proof.
  unfold lowerString. split; intros H; [|now rewrite H].
  apply (f_equal list_ascii_of_string) in H.
  now rewrite !list_ascii_of_string_of_list_ascii in H.
Qed.

(** A host that ends with the dot and the suffix is matched, whatever
    the suffix contains. *)
Lemma like_of_HasSuffix (host domainSuffix : string) :
  HasSuffix host ("." +:+ domainSuffix) = true ->
  sqlLike host ("%." +:+ domainSuffix) = true.
Proof.
  intros [p ->]%HasSuffix_spec. unfold sqlLike.
  change (list_ascii_of_string ("%." +:+ domainSuffix))
    with ("%"%char :: list_ascii_of_string ("." +:+ domainSuffix)).
  rewrite (list_ascii_app p ("." +:+ domainSuffix)).
  apply likeMatch_percent_app, likeMatch_self.
Qed.

(** For a suffix without wildcards the matched hosts are those that end,
    up to the case of ASCII letters, with the dot and the suffix. *)
Lemma like_wildcardFree (host domainSuffix : string) :
  wildcardFree domainSuffix = true ->
  sqlLike host ("%." +:+ domainSuffix) = true
  <-> endsWithFold host ("." +:+ domainSuffix).
Proof.
  intros Hw. unfold sqlLike, endsWithFold.
  change (list_ascii_of_string ("%." +:+ domainSuffix))
    with ("%"%char :: list_ascii_of_string ("." +:+ domainSuffix)).
  assert (Hq : forallb (fun c => negb (isWildcard c))
                 (list_ascii_of_string ("." +:+ domainSuffix)) = true).
  { change (list_ascii_of_string ("." +:+ domainSuffix))
      with ("."%char :: list_ascii_of_string domainSuffix).
    simpl. exact Hw. }
  split.
  - intros (p & t & Hs & Ht)%likeMatch_percent_inv.
    apply (likeMatch_wildcardFree _ Hq) in Ht.
    exists (string_of_list_ascii p), (string_of_list_ascii t). split.
    + rewrite <- string_of_list_app, <- Hs.
      now rewrite string_of_list_ascii_of_string.
    + apply lowerString_eq.
      now rewrite list_ascii_of_string_of_list_ascii.
  - intros (p & t & -> & Ht). rewrite (list_ascii_app p t).
    apply likeMatch_percent_app, (likeMatch_wildcardFree _ Hq).
    now apply lowerString_eq.
Qed.

End Like.




(** The three rows of the witness after the replacement: the subdomain
    and the domain itself are selected, the look-alike is not. *)
Example replace_host_three_rows :
  let db := [sampleRow "1" "v1.example.com" 1 2 3;
             sampleRow "2" "example.com" 4 5 6;
             sampleRow "3" "notexample.com" 7 8 9] in
  let result := replaceHostHandler noFaults (Some "example.com") db in
  fst result = OK 2
  /\ List.map r_host (snd result) = ["example.com"; "example.com"; "notexample.com"].
Proof. cbv zeta. split; vm_compute; reflexivity. Qed.

(* ===================================================================== *)
(** * The hosts of the Primary Store                                      *)
(* ===================================================================== *)

Section HostInvariant.

Lemma scanRows_In (rows : list Row) (c : Connection) :
  In c (scanRows rows) -> exists r, In r rows /\ scanRow r = Some c.
Proof.
  induction rows as [|r rows IH]; simpl; [intros []|].
  destruct (scanRow r) as [c'|] eqn:Hr.
  - intros [<-|Hin].
    + exists r. split; [now left | exact Hr].
    + destruct (IH Hin) as (r' & Hr' & Hs). exists r'. split; [now right | exact Hs].
  - intros Hin. destruct (IH Hin) as (r' & Hr' & Hs).
    exists r'. split; [now right | exact Hs].
Qed.

Lemma scanRow_host (r : Row) (c : Connection) :
  scanRow r = Some c -> Host (Meta c) = r_host r.
Proof.
  unfold scanRow.
  destruct ((r_upload r <? 0)%Z || (r_download r <? 0)%Z); [discriminate|].
  intros H. injection H as <-. reflexivity.
Qed.

(** Whatever the faults, the merge leaves the store as it was or as the
    committed transaction made it. *)
Lemma merge_db_cases (F : Faults) (uuid : nat -> string) (now : Z) (db : Table)
    (archive : list ArchiveRow) (startDate endDate interval : Z) :
  let res := mergeAndArchiveConnections F uuid now db archive
               startDate endDate interval in
  let conns := selectRange startDate endDate db in
  m_db res = db
  \/ m_db res
     = List.filter (fun r => negb (idIn (List.map ID conns) (r_id r))) db
       ++ mergedRows uuid 0 (groupConnections interval conns).
Proof.
  intros res conns. subst res. unfold mergeAndArchiveConnections. fold conns.
  destruct (F MQuery); [now left|].
  destruct (Nat.eqb (List.length conns) 0); [now left|].
  destruct (F MBegin); [now left|].
  destruct (F MArchiveBegin); [now left|].
  unfold mergeTx.
  destruct (F MPrepareArchive); [now left|].
  destruct (F MPrepareDelete); [now left|].
  destruct (archiveLoop F now 0 conns db archive) as [e|[tx1 a1]] eqn:Harch;
    [now left|].
  destruct (F MPrepareInsert); [now left|].
  destruct (insertLoop F uuid 0 (groupConnections interval conns) tx1)
    as [e|tx2] eqn:Hins; [now left|].
  destruct (F MCommit); [now left|].
  apply archiveLoop_inr in Harch as [-> ->].
  apply insertLoop_inr in Hins as [-> _].
  right. now destruct (F MArchiveCommit).
Qed.

Lemma hostInvariant_merge (F : Faults) (uuid : nat -> string) (now : Z)
    (db : Table) (archive : list ArchiveRow) (startDate endDate interval : Z) :
  hostInvariant db ->
  hostInvariant (m_db (mergeAndArchiveConnections F uuid now db archive
                         startDate endDate interval)).
Proof.
  intros Hinv.
  destruct (merge_db_cases F uuid now db archive startDate endDate interval)
    as [-> | ->]; [exact Hinv|].
  unfold hostInvariant in *. apply List.Forall_app. split.
  - apply List.Forall_forall. intros r [Hr _]%List.filter_In.
    revert r Hr. now apply List.Forall_forall.
  - apply List.Forall_forall.
    intros m (i & k & e & Hin & ->)%mergedRows_entries.
    destruct (group_entry _ _ _ _ Hin) as (first & rest & Hm & ->).
    destruct (accumulate_fold_fields rest first) as (_ & HM & _).
    unfold mergedRowOf. cbn [r_host]. rewrite HM.
    assert (Hf : In first (selectRange startDate endDate db)).
    { apply (members_key interval _ k first). rewrite Hm. now left. }
    unfold selectRange in Hf.
    destruct (scanRows_In _ _ Hf) as (r & Hr & Hs).
    rewrite (scanRow_host _ _ Hs).
    apply List.filter_In in Hr as [Hr _].
    clear Hs. revert r Hr. now apply List.Forall_forall.
Qed.

Lemma hostInvariant_replace (F : Faults) (body : option string) (db : Table) :
  hostInvariant db -> hostInvariant (snd (replaceHostHandler F body db)).
Proof.
  intros Hinv. unfold replaceHostHandler.
  destruct body as [domainSuffix|]; [|exact Hinv].
  destruct (String.eqb_spec domainSuffix "") as [E|E]; [exact Hinv|].
  destruct (F RExec); [exact Hinv|]. cbn [snd].
  unfold hostInvariant, updateHost in *. apply List.Forall_map.
  eapply List.Forall_impl; [|exact Hinv].
  intros r Hr. now destruct (replaceWhere domainSuffix r).
Qed.

Lemma BulkUpsert_discards (F : Faults) (db : Table) (pre : list Connection)
    (c : Connection) (post : list Connection) :
  Host (Meta c) = "" ->
  BulkUpsertConnections F db (pre ++ c :: post)
  = BulkUpsertConnections F db (pre ++ post).
Proof.
  intros Hc. unfold BulkUpsertConnections.
  now rewrite (upsertLoop_discards F pre c post Hc).
Qed.

End HostInvariant.

(** C8 (non-empty host).  Every state the Primary Store can reach, from
    the empty table through batched upserts, merges and host replacements
    with any inputs and any faults, has no row with an empty host; each
    of the three writers keeps that property.  A record with an empty
    host is discarded by the batched upsert without an error, the batch
    behaving as if the record were not in it; after a flush that commits,
    the row stored under the id of such a cached record is what it was
    before and the cache is empty, so the record is neither persisted nor
    kept for a later flush. *)
Theorem primary_store_hosts_nonempty :
  (forall db, reachable db -> hostInvariant db)
  /\ (forall F db conns,
        hostInvariant db -> hostInvariant (snd (BulkUpsertConnections F db conns)))
  /\ (forall F uuid now db archive startDate endDate interval,
        hostInvariant db ->
        hostInvariant (m_db (mergeAndArchiveConnections F uuid now db archive
                               startDate endDate interval)))
  /\ (forall F body db,
        hostInvariant db -> hostInvariant (snd (replaceHostHandler F body db)))
  /\ (forall F db pre c post,
        Host (Meta c) = "" ->
        BulkUpsertConnections F db (pre ++ c :: post)
        = BulkUpsertConnections F db (pre ++ post))
  /\ (forall F db cache c,
        keyedById cache -> cache !! ID c = Some c -> Host (Meta c) = "" ->
        flushSucceeded (writeCacheToDB F db cache) ->
        findRow (ID c) (f_db (writeCacheToDB F db cache)) = findRow (ID c) db
        /\ f_cache (writeCacheToDB F db cache) = ∅).
Proof.
  split; [|split; [|split; [|split; [|split]]]].
  - induction 1 as [|F db conns _ IH|F uuid now db archive s e i _ IH
                     |F body db _ IH].
    + constructor.
    + now apply BulkUpsert_hostInvariant.
    + now apply hostInvariant_merge.
    + now apply hostInvariant_replace.
  - intros F db conns. apply BulkUpsert_hostInvariant.
  - intros F uuid now db archive s e i. apply hostInvariant_merge.
  - intros F body db. apply hostInvariant_replace.
  - intros F db pre c post. apply BulkUpsert_discards.
  - intros F db cache c Hk Hc Hh Hok.
    destruct (flushSucceeded_inv F db cache Hok) as (tx & Hloop & ->). simpl.
    split; [|reflexivity].
    apply (upsertLoop_untouched F _ _ _ _ (ID c) Hloop).
    intros c' Hc' Hid. apply In_Range in Hc' as [k Hk'].
    pose proof (Hk _ _ Hk') as Hkid. rewrite Hid in Hkid. subst k.
    rewrite Hc in Hk'. injection Hk' as <-. exact Hh.
Qed.

(** A store reached by a flush, a host replacement and a merge. *)
Example reachable_store :
  let db1 := snd (BulkUpsertConnections noFaults []
                    [sampleConn "a" "v1.example.com" "" 10 20 1700000400;
                     sampleConn "b" "" "" 1 2 1700000460]) in
  let db2 := snd (replaceHostHandler noFaults (Some "example.com") db1) in
  let db3 := m_db (mergeAndArchiveConnections noFaults sampleUuid 0 db2 []
                     1700000000 1700009000 10) in
  reachable db3
  /\ List.map r_host db3 = ["example.com"].
Proof.
  cbv zeta. split.
  - apply reach_merge, reach_replace, reach_flush, reach_init.
  - vm_compute. reflexivity.
Qed.

(* ===================================================================== *)
(** * Further properties of the merge                                     *)
(* ===================================================================== *)

Section MergeOutcomes.

Variable uuid : nat -> string.
Variable now : Z.

Lemma archiveLoop_faults (F F' : Faults) (conns : list Connection) :
  (forall n, F (MArchiveExec n) = F' (MArchiveExec n)) ->
  (forall n, F (MDeleteExec n) = F' (MDeleteExec n)) ->
  forall n tx archiveTx,
    archiveLoop F now n conns tx archiveTx = archiveLoop F' now n conns tx archiveTx.
Proof.
  intros HA HD. induction conns as [|c rest IH]; intros n tx a; simpl; [reflexivity|].
  rewrite HA, HD.
  destruct (F' (MArchiveExec n) || negb (bindable (Upload c))
            || negb (bindable (Download c))); [reflexivity|].
  destruct (F' (MDeleteExec n)); [reflexivity | apply IH].
Qed.

Lemma insertLoop_faults (F F' : Faults) (merged : list (GroupKey * Connection)) :
  (forall n, F (MInsertExec n) = F' (MInsertExec n)) ->
  forall n tx, insertLoop F uuid n merged tx = insertLoop F' uuid n merged tx.
Proof.
  intros HI. induction merged as [|[k e] rest IH]; intros n tx; simpl; [reflexivity|].
  rewrite HI.
  destruct (F' (MInsertExec n) || negb (bindable (Upload e))
            || negb (bindable (Download e)) || existsb (hasId (uuid n)) tx);
    [reflexivity | apply IH].
Qed.

Lemma mergeTx_withoutCommitFaults (F : Faults) (conns : list Connection)
    (merged : list (GroupKey * Connection)) (db : Table)
    (archive : list ArchiveRow) :
  mergeTx (withoutCommitFaults F) uuid now conns merged db archive
  = mergeTx F uuid now conns merged db archive.
Proof.
  unfold mergeTx. cbn [withoutCommitFaults].
  rewrite (archiveLoop_faults (withoutCommitFaults F) F) by reflexivity.
  destruct (F MPrepareArchive); [reflexivity|].
  destruct (F MPrepareDelete); [reflexivity|].
  destruct (archiveLoop F now 0 conns db archive) as [e|[tx a]]; [reflexivity|].
  destruct (F MPrepareInsert); [reflexivity|].
  now rewrite (insertLoop_faults (withoutCommitFaults F) F) by reflexivity.
Qed.

(** The three outcomes of a merge: an error with both stores as they
    were; nil with both stores as they were; nil with the transaction on
    the Primary Store committed. *)
Lemma merge_outcomes (F : Faults) (db : Table) (archive : list ArchiveRow)
    (startDate endDate interval : Z) :
  let res := mergeAndArchiveConnections F uuid now db archive
               startDate endDate interval in
  let conns := selectRange startDate endDate db in
  (exists e, res = mkMergeResult (Some e) db archive)
  \/ (res = mkMergeResult None db archive
      /\ (conns = [] \/ F MCommit = true))
  \/ (F MCommit = false /\ conns <> []
      /\ res = mkMergeResult None
                 (List.filter (fun r => negb (idIn (List.map ID conns) (r_id r))) db
                  ++ mergedRows uuid 0 (groupConnections interval conns))
                 (if F MArchiveCommit then archive
                  else archive ++ List.map (archiveRowOf now) conns)).
Proof.
  intros res conns. subst res. unfold mergeAndArchiveConnections. fold conns.
  destruct (F MQuery); [left; eauto|].
  destruct conns as [|c0 rest] eqn:Hconns; [right; left; auto|].
  rewrite <- Hconns.
  replace (Nat.eqb (List.length conns) 0) with false by (rewrite Hconns; reflexivity).
  destruct (F MBegin); [left; eauto|].
  destruct (F MArchiveBegin); [left; eauto|].
  unfold mergeTx.
  destruct (F MPrepareArchive); [left; eauto|].
  destruct (F MPrepareDelete); [left; eauto|].
  destruct (archiveLoop F now 0 conns db archive) as [e|[tx1 a1]] eqn:Harch;
    [left; eauto|].
  destruct (F MPrepareInsert); [left; eauto|].
  destruct (insertLoop F uuid 0 (groupConnections interval conns) tx1)
    as [e|tx2] eqn:Hins; [left; eauto|].
  apply archiveLoop_inr in Harch as [-> ->].
  apply insertLoop_inr in Hins as [-> _].
  destruct (F MCommit); [right; left; auto|].
  right. right. split; [reflexivity|]. split; [rewrite Hconns; discriminate|].
  now destruct (F MArchiveCommit).
Qed.

Lemma archiveRowOf_connOfRow (r : Row) :
  archiveRowOf now (connOfRow r) = mkArchiveRow (archivedForm r) now.
Proof.
  unfold archiveRowOf, connOfRow, archivedForm, firstChain. simpl.
  now destruct (r_chain r).
Qed.

End MergeOutcomes.

(** X1 (archive is append-only).  Whatever the inputs and the faults, the
    archive after a merge is the archive before it followed by nothing
    or by one row per record read in the range, in the order read, stamped
    with the time of the merge: no archive row is changed or removed.
    When both commits go through and no error is returned the rows are
    appended; for a store holding counters as this program writes them
    they are the rows of the range with all their fields (a NULL chain
    as the empty string). *)
Theorem archive_append_only (F : Faults) (uuid : nat -> string) (now : Z)
    (db : Table) (archive : list ArchiveRow) (startDate endDate interval : Z) :
  let res := mergeAndArchiveConnections F uuid now db archive
               startDate endDate interval in
  let added := List.map (archiveRowOf now) (selectRange startDate endDate db) in
  (m_archive res = archive \/ m_archive res = archive ++ added)
  /\ (F MCommit = false -> F MArchiveCommit = false -> m_err res = None ->
      m_archive res = archive ++ added)
  /\ (List.Forall countersStored db ->
      added = List.map (fun r => mkArchiveRow (archivedForm r) now)
                (List.filter (inRange startDate endDate) db)).
Proof.
  cbv zeta. split; [|split].
  - destruct (merge_outcomes uuid now F db archive startDate endDate interval)
      as [[e ->] | [[-> _] | (_ & _ & ->)]]; cbn [m_archive]; auto.
    destruct (F MArchiveCommit); auto.
  - intros HC HA Herr.
    destruct (merge_outcomes uuid now F db archive startDate endDate interval)
      as [[e He] | [[He [Hnil|Hc]] | (_ & _ & He)]].
    + rewrite He in Herr. discriminate Herr.
    + rewrite He, Hnil. cbn [m_archive]. simpl. now rewrite app_nil_r.
    + congruence.
    + rewrite He. cbn [m_archive]. now rewrite HA.
  - intros Hst. rewrite selectRange_stored by exact Hst.
    rewrite List.map_map. apply List.map_ext. intros r.
    apply archiveRowOf_connOfRow.
Qed.

(** X2 (a merge that returns an error changed nothing).  When
    [mergeAndArchiveConnections] returns an error, whichever step
    failed, both transactions were rolled back: the Primary Store and the
    archive are what they were. *)
Theorem merge_error_rolls_back (F : Faults) (uuid : nat -> string) (now : Z)
    (db : Table) (archive : list ArchiveRow) (startDate endDate interval : Z)
    (e : DBError) :
  m_err (mergeAndArchiveConnections F uuid now db archive
           startDate endDate interval) = Some e ->
  m_db (mergeAndArchiveConnections F uuid now db archive
          startDate endDate interval) = db
  /\ m_archive (mergeAndArchiveConnections F uuid now db archive
                  startDate endDate interval) = archive.
Proof.
  intros Herr.
  destruct (merge_outcomes uuid now F db archive startDate endDate interval)
    as [[e' He] | [[He _] | (_ & _ & He)]]; rewrite He in *; cbn in *;
    try discriminate; auto.
Qed.

(** A generated id that is already the id of a row outside the range
    makes the INSERT fail on the primary key, and the merge is undone. *)
Lemma merge_error_rolls_back_witness :
  let db := [sampleRow "x" "a.com" 10 20 1700000400;
             sampleRow "0-merged" "b.com" 1 1 5] in
  m_db (mergeAndArchiveConnections noFaults sampleUuid 0 db []
          1700000000 1700009000 10) = db
  /\ m_archive (mergeAndArchiveConnections noFaults sampleUuid 0 db []
                  1700000000 1700009000 10) = [].
Proof.
  refine (merge_error_rolls_back noFaults sampleUuid 0 _ [] _ _ _ ErrInsert _).
  vm_compute. reflexivity.
Defined.

(** X3 (commit errors are not reported).  The value the merge returns
    never depends on whether a commit fails: it is the value the same run
    returns without commit faults.  When the commit on the Primary Store
    fails, both stores are left as they were, although nil may be
    returned.  When that commit succeeds and the commit on the archive
    fails, the Primary Store is merged as if nothing had failed and the
    archive is left as it was. *)
Theorem merge_commit_errors_dropped (F : Faults) (uuid : nat -> string)
    (now : Z) (db : Table) (archive : list ArchiveRow)
    (startDate endDate interval : Z) :
  let res := mergeAndArchiveConnections F uuid now db archive
               startDate endDate interval in
  let clean := mergeAndArchiveConnections (withoutCommitFaults F) uuid now db
                 archive startDate endDate interval in
  m_err res = m_err clean
  /\ (F MCommit = true -> m_db res = db /\ m_archive res = archive)
  /\ (F MCommit = false -> F MArchiveCommit = true ->
      m_db res = m_db clean /\ m_archive res = archive).
Proof.
  cbv zeta. unfold mergeAndArchiveConnections.
  rewrite mergeTx_withoutCommitFaults. cbn [withoutCommitFaults].
  destruct (F MQuery); [cbn; auto|].
  destruct (Nat.eqb (List.length (selectRange startDate endDate db)) 0);
    [cbn; auto|].
  destruct (F MBegin); [cbn; auto|].
  destruct (F MArchiveBegin); [cbn; auto|].
  destruct (mergeTx F uuid now (selectRange startDate endDate db)
              (groupConnections interval (selectRange startDate endDate db))
              db archive) as [e|[tx a]]; [cbn; auto|].
  destruct (F MCommit), (F MArchiveCommit); cbn; repeat split; auto;
    intros; discriminate.
Qed.

(** X4 (nothing in the range).  When no stored row starts in the closed
    range, in particular when the end of the range is before its start,
    the merge opens no transaction: both stores are what they were, and
    the result is nil unless the SELECT itself failed. *)
Theorem merge_empty_range (F : Faults) (uuid : nat -> string) (now : Z)
    (db : Table) (archive : list ArchiveRow) (startDate endDate interval : Z) :
  (endDate < startDate)%Z
  \/ (forall r, In r db -> inRange startDate endDate r = false) ->
  mergeAndArchiveConnections F uuid now db archive startDate endDate interval
  = mkMergeResult (if F MQuery then Some ErrQuery else None) db archive.
Proof.
  intros H.
  assert (Hnone : List.filter (inRange startDate endDate) db = []).
  { assert (Hall : forall r, In r db -> inRange startDate endDate r = false).
    { destruct H as [Hlt|H]; [|exact H].
      intros r _. unfold inRange. apply andb_false_iff.
      destruct (Z.leb_spec startDate (r_start r)); [right|left; reflexivity].
      apply Z.leb_gt. lia. }
    clear H. induction db as [|r rows IH]; simpl; [reflexivity|].
    rewrite (Hall r) by now left. apply IH. intros r' Hr'. apply Hall. now right. }
  unfold mergeAndArchiveConnections, selectRange. rewrite Hnone. simpl.
  now destruct (F MQuery).
Qed.

Lemma merge_empty_range_witness :
  mergeAndArchiveConnections noFaults sampleUuid 0 twoRecords []
    1700009000 1700000000 10
  = mkMergeResult None twoRecords [].
Proof.
  refine (merge_empty_range noFaults sampleUuid 0 twoRecords []
            1700009000 1700000000 10 (or_introl _)).
  reflexivity.
Defined.

(* ===================================================================== *)
(** * Totals across a merge                                               *)
(* ===================================================================== *)

Section Totals.

(** A counter field: [Upload] or [Download]. *)
Variable f : Connection -> Z.
Hypothesis f_accumulate :
  forall existing conn, f (accumulate existing conn) = add64 (f existing) (f conn).

Lemma sumZ_app (a b : list Z) : sumZ (a ++ b) = (sumZ a + sumZ b)%Z.
Proof. induction a as [|x a IH]; simpl; [reflexivity | rewrite IH; lia]. Qed.

Lemma entries_mergeInto_mod (k : GroupKey) (c : Connection)
    (m : list (GroupKey * Connection)) :
  (sumZ (List.map (fun kc => f (snd kc)) (mergeInto k c m)) mod two64
   = (sumZ (List.map (fun kc => f (snd kc)) m) + f c) mod two64)%Z.
Proof.
  induction m as [|[k' e] m IH]; simpl.
  - f_equal. lia.
  - destruct (decide (k' = k)) as [E|E]; simpl.
    + rewrite f_accumulate. unfold add64.
      rewrite Zplus_mod_idemp_l. f_equal. lia.
    + rewrite <- Zplus_mod_idemp_r, IH, Zplus_mod_idemp_r. f_equal. lia.
Qed.

Lemma entries_mergeInto_le (k : GroupKey) (c : Connection)
    (m : list (GroupKey * Connection)) :
  (0 <= f c)%Z ->
  List.Forall (fun kc => (0 <= f (snd kc))%Z) m ->
  List.Forall (fun kc => (0 <= f (snd kc))%Z) (mergeInto k c m)
  /\ (sumZ (List.map (fun kc => f (snd kc)) (mergeInto k c m))
      <= sumZ (List.map (fun kc => f (snd kc)) m) + f c)%Z.
Proof.
  intros Hc. induction 1 as [|[k' e] m He Hm IH]; simpl.
  - split; [repeat constructor; exact Hc | lia].
  - simpl in He. destruct (decide (k' = k)) as [E|E]; simpl.
    + assert (H0 : (0 <= (f e + f c) mod two64)%Z)
        by (apply Z.mod_pos_bound; reflexivity).
      assert (H1 : ((f e + f c) mod two64 <= f e + f c)%Z)
        by (apply Z.mod_le; [lia | reflexivity]).
      rewrite f_accumulate. unfold add64. split; [|lia].
      constructor; [|exact Hm]. cbn [snd]. rewrite f_accumulate. exact H0.
    + destruct IH as [IH1 IH2]. split; [|lia].
      constructor; [exact He | exact IH1].
Qed.

Lemma entries_group_mod (interval : Z) (conns : list Connection) :
  (sumZ (List.map (fun kc => f (snd kc)) (groupConnections interval conns))
     mod two64
   = sumZ (List.map f conns) mod two64)%Z.
Proof.
  induction conns as [|c conns IH] using rev_ind; [reflexivity|].
  rewrite groupConnections_snoc, entries_mergeInto_mod.
  rewrite List.map_app, sumZ_app. simpl.
  rewrite <- Zplus_mod_idemp_l, IH, Zplus_mod_idemp_l. f_equal. lia.
Qed.

Lemma entries_group_le (interval : Z) (conns : list Connection) :
  List.Forall (fun c => (0 <= f c)%Z) conns ->
  List.Forall (fun kc => (0 <= f (snd kc))%Z) (groupConnections interval conns)
  /\ (sumZ (List.map (fun kc => f (snd kc)) (groupConnections interval conns))
      <= sumZ (List.map f conns))%Z.
Proof.
  induction conns as [|c conns IH] using rev_ind; intros Hall.
  - split; [constructor | simpl; lia].
  - apply List.Forall_app in Hall as [Hall Hc].
    apply List.Forall_inv in Hc.
    destruct (IH Hall) as [IH1 IH2].
    rewrite groupConnections_snoc.
    destruct (entries_mergeInto_le (groupKey interval c) c _ Hc IH1) as [H1 H2].
    split; [exact H1|].
    rewrite List.map_app, sumZ_app. simpl. lia.
Qed.

(** The sum over the entries of [mergedConnections] against the sum over
    the records read. *)
Lemma entries_group_sum (interval : Z) (conns : list Connection) :
  List.Forall (fun c => (0 <= f c)%Z) conns ->
  (sumZ (List.map (fun kc => f (snd kc)) (groupConnections interval conns))
     mod two64
   = sumZ (List.map f conns) mod two64)%Z
  /\ ((sumZ (List.map f conns) < two64)%Z ->
      sumZ (List.map (fun kc => f (snd kc)) (groupConnections interval conns))
      = sumZ (List.map f conns)).
Proof.
  intros Hall. split; [apply entries_group_mod|].
  intros Hlt. pose proof (entries_group_mod interval conns) as Hmod.
  destruct (entries_group_le interval conns Hall) as [Hnn Hle].
  assert (H0 : (0 <= sumZ (List.map (fun kc => f (snd kc))
                         (groupConnections interval conns)))%Z).
  { apply sumZ_nonneg, List.Forall_map. exact Hnn. }
  rewrite !Z.mod_small in Hmod by lia. exact Hmod.
Qed.

End Totals.

Lemma sumZ_filter_split {A : Type} (g : A -> Z) (p : A -> bool) (l : list A) :
  sumZ (List.map g l)
  = (sumZ (List.map g (List.filter (fun x => negb (p x)) l))
     + sumZ (List.map g (List.filter p l)))%Z.
Proof.
  induction l as [|x l IH]; simpl; [reflexivity|].
  destruct (p x); simpl; rewrite IH; lia.
Qed.

Lemma mergedRows_upload (uuid : nat -> string)
    (merged : list (GroupKey * Connection)) :
  forall n, List.map r_upload (mergedRows uuid n merged)
            = List.map (fun kc => Upload (snd kc)) merged.
Proof.
  induction merged as [|[k e] rest IH]; intros n; simpl; [reflexivity|].
  now rewrite IH.
Qed.

Lemma mergedRows_download (uuid : nat -> string)
    (merged : list (GroupKey * Connection)) :
  forall n, List.map r_download (mergedRows uuid n merged)
            = List.map (fun kc => Download (snd kc)) merged.
Proof.
  induction merged as [|[k e] rest IH]; intros n; simpl; [reflexivity|].
  now rewrite IH.
Qed.

(** X5 (a merge keeps the totals of the store).  For a store keyed by id
    that holds counters as this program writes them: after a merge that
    committed, the sum of upload over all rows of the Primary Store is
    the sum before the merge modulo [2^64], and exactly the sum before
    whenever the uploads of the records in the range add up to less than
    [2^64]; likewise for download. *)
Theorem merge_preserves_totals (F : Faults) (uuid : nat -> string) (now : Z)
    (db : Table) (archive : list ArchiveRow) (startDate endDate interval : Z) :
  NoDup (ids db) ->
  List.Forall countersStored db ->
  F MCommit = false ->
  m_err (mergeAndArchiveConnections F uuid now db archive
           startDate endDate interval) = None ->
  let res := mergeAndArchiveConnections F uuid now db archive
               startDate endDate interval in
  let originals := List.filter (inRange startDate endDate) db in
  (sumZ (List.map r_upload (m_db res)) mod two64
   = sumZ (List.map r_upload db) mod two64)%Z
  /\ (sumZ (List.map r_download (m_db res)) mod two64
      = sumZ (List.map r_download db) mod two64)%Z
  /\ ((sumZ (List.map r_upload originals) < two64)%Z ->
      sumZ (List.map r_upload (m_db res)) = sumZ (List.map r_upload db))
  /\ ((sumZ (List.map r_download originals) < two64)%Z ->
      sumZ (List.map r_download (m_db res)) = sumZ (List.map r_download db)).
Proof.
  intros Hkey Hst HC Herr. cbv zeta.
  rewrite (merge_store interval F uuid now db archive startDate endDate
             Hkey Hst HC Herr).
  set (originals := List.filter (inRange startDate endDate) db).
  set (conns := List.map connOfRow originals).
  assert (Hor : List.Forall countersStored originals).
  { apply List.Forall_forall. intros r [Hr _]%List.filter_In.
    revert r Hr. now apply List.Forall_forall. }
  assert (HU : List.Forall (fun c => (0 <= Upload c)%Z) conns).
  { apply List.Forall_map. eapply List.Forall_impl; [|exact Hor].
    intros r [Hu _]. simpl. lia. }
  assert (HD : List.Forall (fun c => (0 <= Download c)%Z) conns).
  { apply List.Forall_map. eapply List.Forall_impl; [|exact Hor].
    intros r [_ Hd]. simpl. lia. }
  destruct (entries_group_sum Upload (fun _ _ => eq_refl) interval conns HU)
    as [HUm HUe].
  destruct (entries_group_sum Download (fun _ _ => eq_refl) interval conns HD)
    as [HDm HDe].
  assert (EU : List.map Upload conns = List.map r_upload originals)
    by (unfold conns; now rewrite List.map_map).
  assert (ED : List.map Download conns = List.map r_download originals)
    by (unfold conns; now rewrite List.map_map).
  rewrite EU in HUm, HUe. rewrite ED in HDm, HDe.
  rewrite !List.map_app, !sumZ_app, mergedRows_upload, mergedRows_download.
  rewrite (sumZ_filter_split r_upload (inRange startDate endDate) db).
  rewrite (sumZ_filter_split r_download (inRange startDate endDate) db).
  fold originals.
  split; [|split; [|split]].
  - rewrite <- Zplus_mod_idemp_r, HUm, Zplus_mod_idemp_r. reflexivity.
  - rewrite <- Zplus_mod_idemp_r, HDm, Zplus_mod_idemp_r. reflexivity.
  - intros Hlt. now rewrite (HUe Hlt).
  - intros Hlt. now rewrite (HDe Hlt).
Qed.

Lemma merge_preserves_totals_witness :
  let res := mergeAndArchiveConnections noFaults sampleUuid 0 twoRecords []
               1700000000 1700009000 10 in
  let originals := List.filter (inRange 1700000000 1700009000) twoRecords in
  (sumZ (List.map r_upload (m_db res)) mod two64
   = sumZ (List.map r_upload twoRecords) mod two64)%Z
  /\ (sumZ (List.map r_download (m_db res)) mod two64
      = sumZ (List.map r_download twoRecords) mod two64)%Z
  /\ ((sumZ (List.map r_upload originals) < two64)%Z ->
      sumZ (List.map r_upload (m_db res)) = sumZ (List.map r_upload twoRecords))
  /\ ((sumZ (List.map r_download originals) < two64)%Z ->
      sumZ (List.map r_download (m_db res))
      = sumZ (List.map r_download twoRecords)).
Proof.
  refine (merge_preserves_totals noFaults sampleUuid 0 twoRecords []
            1700000000 1700009000 10 twoRecords_key twoRecords_stored eq_refl _).
  vm_compute. reflexivity.
Defined.

(* ===================================================================== *)
(** * Further properties of the upsert, the flush and the poller          *)
(* ===================================================================== *)

Section UpsertIds.

Variable F : Faults.

Lemma upsertLoop_ids (conns : list Connection) :
  forall n tx tx',
    upsertLoop F n conns tx = inr tx' ->
    exists added,
      ids tx' = ids tx ++ added
      /\ (forall id, In id added ->
            exists c, In c conns /\ ID c = id /\ Host (Meta c) <> "").
Proof.
  induction conns as [|c rest IH]; intros n tx tx' Hloop; simpl in Hloop.
  - injection Hloop as <-. exists []. split; [now rewrite app_nil_r | intros id []].
  - destruct (String.eqb_spec (Host (Meta c)) "") as [Hh|Hh].
    + destruct (IH _ _ _ Hloop) as (added & Hids & Hfrom).
      exists added. split; [exact Hids|].
      intros id Hid. destruct (Hfrom id Hid) as (c' & Hc' & H1 & H2).
      exists c'. split; [now right | now split].
    + destruct (execUpsert F n c tx) as [tx1|] eqn:Hexec; [|discriminate].
      apply execUpsert_Some in Hexec. subst tx1.
      destruct (IH _ _ _ Hloop) as (added & Hids & Hfrom).
      rewrite ids_upsert in Hids.
      destruct (existsb (hasId (r_id (rowOfConnection c))) tx).
      * exists added. split; [exact Hids|].
        intros id Hid. destruct (Hfrom id Hid) as (c' & Hc' & H1 & H2).
        exists c'. split; [now right | now split].
      * exists (ID c :: added). split.
        { rewrite Hids, <- app_assoc. reflexivity. }
        intros id [<-|Hid].
        { exists c. split; [now left | now split]. }
        destruct (Hfrom id Hid) as (c' & Hc' & H1 & H2).
        exists c'. split; [now right | now split].
Qed.

Lemma upsertLoop_present (conns : list Connection) :
  forall n tx tx' c,
    upsertLoop F n conns tx = inr tx' ->
    In c conns -> Host (Meta c) <> "" ->
    In (ID c) (ids tx')
    /\ (Upload c < two63)%Z /\ (Download c < two63)%Z.
Proof.
  induction conns as [|a rest IH]; intros n tx tx' c Hloop Hin Hh;
    simpl in Hloop; [destruct Hin|].
  destruct Hin as [-> | Hin].
  - destruct (String.eqb_spec (Host (Meta c)) "") as [E|_]; [contradiction|].
    unfold execUpsert in Hloop.
    destruct (F (SExec n)); [discriminate|]. simpl in Hloop.
    unfold bindable in Hloop.
    destruct (Z.ltb_spec (Upload c) two63); [|discriminate].
    destruct (Z.ltb_spec (Download c) two63); [|discriminate].
    simpl in Hloop. split; [|split; assumption].
    destruct (upsertLoop_ids _ _ _ _ Hloop) as (added & Hids & _).
    rewrite Hids. apply in_or_app. left.
    rewrite ids_upsert. simpl r_id.
    destruct (existsb (hasId (ID c)) tx) eqn:Hex.
    + now apply existsb_hasId.
    + apply in_or_app. right. now left.
  - destruct (Host (Meta a) =? "")%string; [eauto|].
    destruct (execUpsert F n a tx) as [tx1|] eqn:Hexec; [|discriminate].
    eauto.
Qed.

End UpsertIds.

(** X6 (the batch is all or nothing, and only ever adds rows).  For any
    batch and any faults: if [BulkUpsertConnections] returns an error the
    store is what it was.  If it returns nil, every record of the batch
    that has a host has a row under its id, and its two counters were
    below [2^63].  In both cases the ids stored before are still there,
    in place, followed by ids of records of the batch that have a host;
    and a store keyed by id stays keyed by id. *)
Theorem bulk_upsert_all_or_nothing (F : Faults) (db : Table)
    (conns : list Connection) :
  let res := BulkUpsertConnections F db conns in
  (fst res <> None -> snd res = db)
  /\ (fst res = None ->
      forall c, In c conns -> Host (Meta c) <> "" ->
        In (ID c) (ids (snd res))
        /\ (Upload c < two63)%Z /\ (Download c < two63)%Z)
  /\ (exists added,
        ids (snd res) = ids db ++ added
        /\ (forall id, In id added ->
              exists c, In c conns /\ ID c = id /\ Host (Meta c) <> ""))
  /\ (NoDup (ids db) -> NoDup (ids (snd res))).
Proof.
  cbv zeta.
  destruct (BulkUpsert_cases F db conns) as [[e He] | (tx & He & Hloop)];
    rewrite He; cbn [fst snd].
  - split; [reflexivity|]. split; [discriminate|]. split; [|auto].
    exists []. split; [now rewrite app_nil_r | intros id []].
  - split; [congruence|]. split; [|split].
    + intros _ c Hin Hh. eapply upsertLoop_present; eauto.
    + eapply upsertLoop_ids; eauto.
    + intros Hnd. eapply upsertLoop_NoDup; eauto.
Qed.

Lemma Range_empty : Range ∅ = [].
Proof. unfold Range. now rewrite map_to_list_empty. Qed.

(** X7 (flushing again).  After a flush that committed, a second flush
    with nothing polled in between finds the cache empty: it makes no
    database call, whatever faults are pending, and only logs that the
    cache is empty.  After a flush that did not commit, the next flush
    starts from the same cache and the same store, so it does what it
    would have done in place of the first. *)
Theorem flush_again (F F' : Faults) (db : Table) (cache : Cache) :
  let res1 := writeCacheToDB F db cache in
  let res2 := writeCacheToDB F' (f_db res1) (f_cache res1) in
  (flushSucceeded res1 -> res2 = mkFlushResult (f_db res1) ∅ [LogCacheEmpty])
  /\ (~ flushSucceeded res1 -> res2 = writeCacheToDB F' db cache).
Proof.
  cbv zeta. split.
  - intros Hok. destruct (flushSucceeded_inv F db cache Hok) as (tx & _ & ->).
    cbn [f_db f_cache]. unfold writeCacheToDB. now rewrite Range_empty.
  - intros Hno.
    destruct (writeCacheToDB_cases F db cache)
      as [[_ ->] | [(e & _ & ->) | (tx & _ & _ & He)]]; try reflexivity.
    exfalso. apply Hno. rewrite He. right. now left.
Qed.

Section Poller.

Lemma storeAll_snoc (conns : list Connection) (c : Connection) (cache : Cache) :
  storeAll (conns ++ [c]) cache = Store (ID c) c (storeAll conns cache).
Proof. unfold storeAll. now rewrite fold_left_app. Qed.

Lemma storeAll_other (conns : list Connection) (cache : Cache) (id : string) :
  ~ In id (List.map ID conns) -> storeAll conns cache !! id = cache !! id.
Proof.
  induction conns as [|c conns IH] using rev_ind; intros Hid; [reflexivity|].
  rewrite storeAll_snoc. unfold Store.
  rewrite List.map_app in Hid. simpl in Hid.
  rewrite lookup_insert_ne.
  - apply IH. intros H. apply Hid. apply in_or_app. now left.
  - intros E. apply Hid. apply in_or_app. right. now left.
Qed.

(** The record cached under an id is the last record of the snapshot
    with that id. *)
Lemma storeAll_last (pre : list Connection) (c : Connection)
    (post : list Connection) (cache : Cache) :
  ~ In (ID c) (List.map ID post) ->
  storeAll (pre ++ c :: post) cache !! ID c = Some c.
Proof.
  intros Hpost. unfold storeAll. rewrite fold_left_app. simpl.
  change (fold_left (fun m conn => Store (ID conn) conn m) post ?m)
    with (storeAll post m).
  rewrite storeAll_other by exact Hpost.
  unfold Store. apply lookup_insert_eq.
Qed.

Lemma cleanConnection_ID (wl : list string) (c : Connection) :
  ID (cleanConnection wl c) = ID c.
Proof.
  unfold cleanConnection, collapseHost, fillHost.
  now destruct (Host (Meta c) =? "")%string.
Qed.

End Poller.

(** X8 (one tick of the poller).  A failed fetch leaves the cache as it
    was.  After a successful fetch, every id that is not in the snapshot
    keeps its cached record; under the id of a snapshot record that no
    later record of the snapshot shares, the cache holds that record,
    normalised; and a cache keyed by connection id stays keyed by
    connection id. *)
Theorem poll_tick_cache (hostSuffixWhitelist : list string) (cache : Cache) :
  pollTick None hostSuffixWhitelist cache = cache
  /\ (forall conns,
        let cache' := pollTick (Some conns) hostSuffixWhitelist cache in
        (forall id, ~ In id (List.map ID conns) -> cache' !! id = cache !! id)
        /\ (forall pre c post,
              conns = pre ++ c :: post ->
              ~ In (ID c) (List.map ID post) ->
              cache' !! ID c = Some (cleanConnection hostSuffixWhitelist c))
        /\ (keyedById cache -> keyedById cache')).
Proof.
  split; [reflexivity|]. intros conns. cbv zeta.
  unfold pollTick, GetClashConnections, cleanConnections.
  split; [|split].
  - intros id Hid. apply storeAll_other.
    rewrite List.map_map. intros H. apply Hid.
    apply in_map_iff in H as (c & Hc & Hin). apply in_map_iff.
    exists c. split; [now rewrite cleanConnection_ID in Hc | exact Hin].
  - intros pre c post -> Hpost. rewrite List.map_app. simpl.
    rewrite <- (cleanConnection_ID hostSuffixWhitelist c).
    apply storeAll_last. rewrite cleanConnection_ID, List.map_map.
    intros H. apply Hpost.
    apply in_map_iff in H as (c' & Hc' & Hin). apply in_map_iff.
    exists c'. split; [now rewrite cleanConnection_ID in Hc' | exact Hin].
  - apply keyedById_storeAll.
Qed.

(** X9 (shape of a normalised host).  The host after normalisation is a
    suffix of the host after the fallback fill, and it is that filled
    host or an entry of the allow-list.  When the allow-list has no empty
    entry, the normalised host is empty exactly when both the host and
    the fallback destination of the record were empty; those are the
    records the flush will discard. *)
Theorem normalized_host_shape (hostSuffixWhitelist : list string) (c : Connection) :
  let filled := Host (Meta (fillHost c)) in
  let h := Host (Meta (cleanConnection hostSuffixWhitelist c)) in
  HasSuffix filled h = true
  /\ (h = filled \/ In h hostSuffixWhitelist)
  /\ (~ In "" hostSuffixWhitelist ->
      (h = "" <-> Host (Meta c) = "" /\ RemoteDestination (Meta c) = "")).
Proof.
  cbv zeta. unfold cleanConnection, collapseHost. cbn [setHost Host Meta].
  set (filled := Host (Meta (fillHost c))).
  assert (Hfilled : filled = "" <-> Host (Meta c) = "" /\ RemoteDestination (Meta c) = "").
  { unfold filled. rewrite fillHost_host.
    destruct (decide (Host (Meta c) = "")) as [E|E]; intuition congruence. }
  destruct (applyWhitelist_cases filled hostSuffixWhitelist)
    as [[_ ->] | (pre & s & post & Hwl & _ & Hs & ->)].
  - split; [apply HasSuffix_refl|]. split; [now left|]. intros _. exact Hfilled.
  - split; [exact Hs|]. split.
    + right. rewrite Hwl. apply in_or_app. right. now left.
    + intros Hne. split.
      * intros ->. exfalso. apply Hne. rewrite Hwl. apply in_or_app. right. now left.
      * intros Hboth. apply Hfilled in Hboth. rewrite Hboth in Hs.
        now apply HasSuffix_empty_l in Hs.
Qed.

(* ===================================================================== *)
(** * Further properties of the host replacement and of the buckets       *)
(* ===================================================================== *)

Section ReplaceAgain.

Variable domainSuffix : string.

Lemma replaceWhere_replaced (r : Row) :
  replaceWhere domainSuffix (setRowHost r domainSuffix) = true.
Proof.
  unfold replaceWhere. cbn [setRowHost r_host].
  rewrite String.eqb_refl. apply orb_true_r.
Qed.

Lemma replaceWhere_updated (r : Row) :
  replaceWhere domainSuffix
    (if replaceWhere domainSuffix r then setRowHost r domainSuffix else r)
  = replaceWhere domainSuffix r.
Proof.
  destruct (replaceWhere domainSuffix r) eqn:Hr;
    [apply replaceWhere_replaced | exact Hr].
Qed.

Lemma updateHost_idempotent (db : Table) :
  updateHost domainSuffix (updateHost domainSuffix db) = updateHost domainSuffix db.
Proof.
  unfold updateHost. rewrite List.map_map. apply List.map_ext. intros r.
  rewrite replaceWhere_updated.
  destruct (replaceWhere domainSuffix r); reflexivity.
Qed.

Lemma rowsAffected_updated (db : Table) :
  rowsAffected domainSuffix (updateHost domainSuffix db)
  = rowsAffected domainSuffix db.
Proof.
  unfold rowsAffected, updateHost. induction db as [|r rows IH]; simpl; [reflexivity|].
  rewrite replaceWhere_updated.
  destruct (replaceWhere domainSuffix r); simpl; now rewrite IH.
Qed.

End ReplaceAgain.

(** X10 (replacing twice).  Sending the same replace-host request again,
    with the same faults, gives the same response and leaves the store
    as the first request left it: the rows selected the first time are
    selected again (their host now equals the suffix) and counted again,
    no other row becomes selected.  The request never changes the ids,
    the counters or the start times of the rows. *)
Theorem replace_host_idempotent (F : Faults) (body : option string) (db : Table) :
  let first := replaceHostHandler F body db in
  replaceHostHandler F body (snd first) = first
  /\ ids (snd first) = ids db
  /\ List.map r_upload (snd first) = List.map r_upload db
  /\ List.map r_download (snd first) = List.map r_download db
  /\ List.map r_start (snd first) = List.map r_start db.
Proof.
  cbv zeta. unfold replaceHostHandler.
  destruct body as [domainSuffix|]; [|repeat split].
  destruct (domainSuffix =? "")%string; [repeat split|].
  destruct (F RExec); [repeat split|]. cbn [fst snd].
  split; [now rewrite updateHost_idempotent, rowsAffected_updated|].
  unfold ids, updateHost. rewrite !List.map_map.
  repeat split; apply List.map_ext; intros r;
    now destruct (replaceWhere domainSuffix r).
Qed.

Section SlotFacts.

Lemma unixToInternal_aligned (interval : Z) :
  (0 < interval)%Z -> (1440 mod interval = 0)%Z ->
  (unixToInternal mod widthSeconds interval = 0)%Z.
Proof.
  intros Hi Hdiv. unfold widthSeconds.
  apply Z.mod_divide in Hdiv; [|lia]. destruct Hdiv as [q Hq].
  replace unixToInternal with ((719162 * q) * (interval * 60))%Z.
  - apply Z.mod_mul. lia.
  - unfold unixToInternal.
    replace (719162 * q * (interval * 60))%Z with (719162 * 60 * (q * interval))%Z
      by lia.
    rewrite <- Hq. reflexivity.
Qed.

Lemma timeSlot_idempotent (interval start : Z) :
  (0 < interval <= maxInterval)%Z ->
  timeSlot interval (timeSlot interval start) = timeSlot interval start.
Proof.
  intros Hi. destruct (timeSlot_bucket interval start Hi) as [_ Hal].
  rewrite (timeSlot_floor interval (timeSlot interval start) Hi), Hal. lia.
Qed.

End SlotFacts.


(* ===================================================================== *)
(** * Properties of the configuration                                     *)
(* ===================================================================== *)

Lemma last_Some_In {A : Type} (l : list A) (x : A) : last l = Some x -> In x l.
Proof.
  induction l as [|a l IH]; [discriminate|].
  destruct l as [|b l]; simpl.
  - intros H. injection H as ->. now left.
  - intros H. right. now apply IH.
Qed.

Section Splitting.

Variable sep : ascii.

Lemma splitOn_nonempty (s : string) : splitOn sep s <> [].
Proof.
  destruct s as [|c rest]; simpl; [discriminate|].
  destruct (Ascii.eqb c sep); [discriminate|].
  destruct (splitOn sep rest); discriminate.
Qed.

Lemma joinWith_cons (piece : string) (more : list string) :
  more <> [] ->
  joinWith sep (piece :: more) = piece +:+ String sep (joinWith sep more).
Proof. destruct more; [contradiction | reflexivity]. Qed.

(** Joining the pieces of a string gives the string back. *)
Lemma joinWith_splitOn (s : string) : joinWith sep (splitOn sep s) = s.
Proof.
  induction s as [|c rest IH]; [reflexivity|]. simpl.
  destruct (Ascii.eqb_spec c sep) as [-> | Hne].
  - rewrite joinWith_cons by apply splitOn_nonempty. now rewrite IH.
  - pose proof (splitOn_nonempty rest) as Hn.
    destruct (splitOn sep rest) as [|piece pieces]; [contradiction|].
    destruct pieces as [|p2 pieces].
    + simpl in *. now rewrite IH.
    + change (joinWith sep (String c piece :: p2 :: pieces))
        with (String c piece +:+ String sep (joinWith sep (p2 :: pieces))).
      change (joinWith sep (piece :: p2 :: pieces))
        with (piece +:+ String sep (joinWith sep (p2 :: pieces))) in IH.
      rewrite app_string_cons. now rewrite IH.
Qed.

Lemma splitOn_no_sep (s : string) :
  List.Forall (fun piece => countByte sep piece = 0) (splitOn sep s).
Proof.
  induction s as [|c rest IH]; simpl; [repeat constructor|].
  destruct (Ascii.eqb c sep) eqn:Hc.
  - constructor; [reflexivity | exact IH].
  - destruct (splitOn sep rest) as [|piece pieces]; simpl.
    + constructor; [simpl; now rewrite Hc | constructor].
    + apply List.Forall_cons_iff in IH as [Hp Hps].
      constructor; [simpl; now rewrite Hc, Hp | exact Hps].
Qed.

Lemma splitOn_length (s : string) :
  List.length (splitOn sep s) = S (countByte sep s).
Proof.
  induction s as [|c rest IH]; [reflexivity|]. simpl.
  destruct (Ascii.eqb c sep); simpl.
  - now rewrite IH.
  - pose proof (splitOn_nonempty rest) as Hn.
    destruct (splitOn sep rest); [contradiction | exact IH].
Qed.

Lemma countByte_trailing (t : string) :
  countByte sep (t +:+ String sep EmptyString) = S (countByte sep t).
Proof.
  induction t as [|c rest IH].
  - change (EmptyString +:+ String sep EmptyString) with (String sep EmptyString).
    simpl. now rewrite Ascii.eqb_refl.
  - rewrite app_string_cons. simpl. rewrite IH. lia.
Qed.

(** A string that ends with the separator has an empty last piece. *)
Lemma splitOn_trailing (t : string) :
  last (splitOn sep (t +:+ String sep EmptyString)) = Some EmptyString.
Proof.
  induction t as [|c rest IH].
  - change (EmptyString +:+ String sep EmptyString) with (String sep EmptyString).
    simpl. now rewrite Ascii.eqb_refl.
  - rewrite app_string_cons. simpl.
    pose proof (splitOn_length (rest +:+ String sep EmptyString)) as Hl.
    rewrite countByte_trailing in Hl.
    destruct (splitOn sep (rest +:+ String sep EmptyString)) as [|piece pieces];
      [discriminate|].
    destruct pieces as [|p2 pieces]; [discriminate|].
    destruct (Ascii.eqb c sep); exact IH.
Qed.

End Splitting.

(** X12 (the allow-list read from the environment).  An unset or empty
    [HOST_SUFFIX_WHITELIST] gives the empty allow-list, and only that
    does.  Otherwise the allow-list is the variable split at its commas:
    joined with commas the entries give the variable back, no entry
    contains a comma, there is one entry more than there are commas, and
    a variable that ends with a comma gives an empty last entry. *)
Theorem whitelist_from_environment (hostSuffixWhitelistStr : string) :
  let whitelist := hostSuffixWhitelistOf hostSuffixWhitelistStr in
  (whitelist = [] <-> hostSuffixWhitelistStr = "")
  /\ joinWith ","%char whitelist = hostSuffixWhitelistStr
  /\ List.Forall (fun entry => countByte ","%char entry = 0) whitelist
  /\ (hostSuffixWhitelistStr <> "" ->
      List.length whitelist = S (countByte ","%char hostSuffixWhitelistStr))
  /\ (forall t, hostSuffixWhitelistStr = t +:+ "," ->
      last whitelist = Some "" /\ In "" whitelist).
Proof.
  cbv zeta. unfold hostSuffixWhitelistOf.
  destruct (String.eqb_spec hostSuffixWhitelistStr "") as [-> | Hne]; cbn [negb].
  - split; [tauto|]. split; [reflexivity|]. split; [constructor|].
    split; [congruence|]. intros t Ht. destruct t; discriminate Ht.
  - split.
    { split; [|contradiction]. intros H. now apply splitOn_nonempty in H. }
    split; [apply joinWith_splitOn|]. split; [apply splitOn_no_sep|].
    split; [intros _; apply splitOn_length|].
    intros t ->. pose proof (splitOn_trailing ","%char t) as Hlast.
    change (String ","%char EmptyString) with "," in Hlast.
    split; [exact Hlast | now apply last_Some_In].
Qed.

Section Values.

Variable env : Env.

Lemma getValue_cases (envKey flagValue defaultValue : string) :
  (flagValue <> "" /\ getValue env envKey flagValue defaultValue = flagValue)
  \/ (flagValue = "" /\ env envKey <> ""
      /\ getValue env envKey flagValue defaultValue = env envKey)
  \/ (flagValue = "" /\ env envKey = ""
      /\ getValue env envKey flagValue defaultValue = defaultValue).
Proof.
  unfold getValue.
  destruct (String.eqb_spec flagValue "") as [Hf|Hf]; cbn [negb]; [|now left].
  right. destruct (String.eqb_spec (env envKey) "") as [He|He]; cbn [negb];
    [right | left]; auto.
Qed.

Lemma getValue_nonempty (envKey flagValue defaultValue : string) :
  defaultValue <> "" -> getValue env envKey flagValue defaultValue <> "".
Proof.
  intros Hd.
  destruct (getValue_cases envKey flagValue defaultValue)
    as [[H ->] | [(_ & H & ->) | (_ & _ & ->)]]; assumption.
Qed.

End Values.


(* ===================================================================== *)
(** * Properties of the connection listing                                *)
(* ===================================================================== *)

Section Paging.

Lemma pages_concat {A : Type} (k n : nat) (l : list A) :
  concat (List.map (fun i => take k (drop (i * k) l)) (seq 0 n)) = take (n * k) l.
Proof.
  induction n as [|n IH]; [reflexivity|].
  rewrite seq_S, List.map_app, concat_app, IH. simpl.
  rewrite app_nil_r, take_take_drop. f_equal. lia.
Qed.

Lemma scanRows_app (a b : list Row) : scanRows (a ++ b) = scanRows a ++ scanRows b.
Proof.
  induction a as [|r a IH]; simpl; [reflexivity|].
  destruct (scanRow r); simpl; now rewrite IH.
Qed.

Lemma scanInfos_app (a b : list Row) :
  scanInfos (a ++ b) = scanInfos a ++ scanInfos b.
Proof. unfold scanInfos. now rewrite scanRows_app, List.map_app. Qed.

Lemma scanInfos_concat (ls : list (list Row)) :
  scanInfos (concat ls) = concat (List.map scanInfos ls).
Proof.
  induction ls as [|l ls IH]; [reflexivity|].
  simpl. now rewrite scanInfos_app, IH.
Qed.

Lemma scanRows_length (rows : list Row) :
  (List.length (scanRows rows) <= List.length rows)%nat.
Proof.
  induction rows as [|r rows IH]; simpl; [lia|].
  destruct (scanRow r); simpl; lia.
Qed.

Lemma normalizePageSize_pos (pageSize : Z) : (0 < normalizePageSize pageSize)%Z.
Proof. unfold normalizePageSize. destruct (Z.leb_spec pageSize 0); lia. Qed.

Lemma totalPagesOf_exact (total pageSize : Z) :
  (0 <= total)%Z -> (0 < pageSize)%Z -> (total + pageSize < two63)%Z ->
  totalPagesOf total pageSize = ((total + pageSize - 1) / pageSize)%Z
  /\ (total <= totalPagesOf total pageSize * pageSize)%Z
  /\ ((totalPagesOf total pageSize - 1) * pageSize < total
      \/ (total = 0 /\ totalPagesOf total pageSize = 0))%Z
  /\ (0 <= totalPagesOf total pageSize)%Z.
Proof.
  intros Ht Hp Hb. unfold totalPagesOf.
  rewrite wrap_int64_small by (unfold two63 in *; lia).
  rewrite Z.quot_div_nonneg by lia.
  pose proof (Z.div_mod (total + pageSize - 1) pageSize ltac:(lia)) as Hdm.
  pose proof (Z.mod_pos_bound (total + pageSize - 1) pageSize Hp) as Hmod.
  assert (H0 : (0 <= (total + pageSize - 1) / pageSize)%Z)
    by (apply Z.div_pos; lia).
  split; [reflexivity|]. split; [nia|]. split; [|exact H0].
  destruct (Z.eq_dec total 0%Z) as [->|Hne].
  - right. split; [reflexivity|]. apply Z.div_small. lia.
  - left. nia.
Qed.

Variable order : SortColumn -> bool -> list Row -> list Row.
Variable q : ListQuery.
Variable db : Table.

Lemma handler_page (page : Z) :
  getConnectionsHandler order false false (withPage q page) db
  = Some {| l_total := Z.of_nat (List.length (List.filter (connectionsWhere q) db));
            l_page := normalizePage page;
            l_pageSize := normalizePageSize (q_pageSize q);
            l_totalPages :=
              totalPagesOf
                (Z.of_nat (List.length (List.filter (connectionsWhere q) db)))
                (normalizePageSize (q_pageSize q));
            l_data :=
              scanInfos
                (sqlLimitOffset (normalizePageSize (q_pageSize q))
                   (pageOffset (normalizePage page) (normalizePageSize (q_pageSize q)))
                   (order (fst (orderByClause (q_sortBy q) (q_sortDesc q)))
                      (snd (orderByClause (q_sortBy q) (q_sortDesc q)))
                      (List.filter (connectionsWhere q) db))) |}.
Proof.
  unfold getConnectionsHandler. cbn [withPage q_page q_pageSize q_sortBy q_sortDesc].
  change (connectionsWhere (withPage q page)) with (connectionsWhere q).
  now destruct (orderByClause (q_sortBy q) (q_sortDesc q)).
Qed.

Lemma pageData_eq (page : Z) :
  pageData order q db page
  = scanInfos
      (sqlLimitOffset (normalizePageSize (q_pageSize q))
         (pageOffset (normalizePage page) (normalizePageSize (q_pageSize q)))
         (order (fst (orderByClause (q_sortBy q) (q_sortDesc q)))
            (snd (orderByClause (q_sortBy q) (q_sortDesc q)))
            (List.filter (connectionsWhere q) db))).
Proof. unfold pageData. now rewrite handler_page. Qed.

Lemma sqlLimitOffset_page {A : Type} (pageSize : Z) (i : nat) (rows : list A) :
  (0 < pageSize)%Z -> (Z.of_nat i * pageSize < two63)%Z ->
  sqlLimitOffset pageSize (pageOffset (Z.of_nat (S i)) pageSize) rows
  = take (Z.to_nat pageSize) (drop (i * Z.to_nat pageSize) rows).
Proof.
  intros Hp Hb. unfold sqlLimitOffset, pageOffset.
  replace (Z.of_nat (S i) - 1)%Z with (Z.of_nat i) by lia.
  rewrite wrap_int64_small by (unfold two63 in *; nia).
  destruct (Z.ltb_spec pageSize 0); [lia|].
  do 2 f_equal. rewrite Z2Nat.inj_mul by lia. now rewrite Nat2Z.id.
Qed.

End Paging.

(** X14 (the pages of a listing).  [order] returns its rows in some
    order, and the total plus the page size fits an [int].  Then for a
    fixed filter and sort: the page size used is positive (20 when the
    parameter is missing or not positive); [totalPages] is the total
    divided by the page size, rounded up; every request is answered with
    that total and that number of pages, a page number below 1 read as
    1, and at most one page size of rows; the data of the pages 1 to
    [totalPages], one after the other, are the selected rows in the
    order of the sort, each once; and a page after the last is empty. *)
Theorem connections_pages (order : SortColumn -> bool -> list Row -> list Row)
    (q : ListQuery) (db : Table) :
  (forall column desc rows, order column desc rows ≡ₚ rows) ->
  let pageSize := normalizePageSize (q_pageSize q) in
  let selected := List.filter (connectionsWhere q) db in
  let total := Z.of_nat (List.length selected) in
  let sorted := order (fst (orderByClause (q_sortBy q) (q_sortDesc q)))
                  (snd (orderByClause (q_sortBy q) (q_sortDesc q))) selected in
  let pages := totalPagesOf total pageSize in
  (total + pageSize < two63)%Z ->
  ((0 < pageSize)%Z /\ (0 <= pages)%Z /\ (total <= pages * pageSize)%Z
   /\ ((pages - 1) * pageSize < total \/ (total = 0 /\ pages = 0))%Z)
  /\ (forall page,
        exists response,
          getConnectionsHandler order false false (withPage q page) db
            = Some response
          /\ l_total response = total /\ l_totalPages response = pages
          /\ l_page response = normalizePage page
          /\ l_pageSize response = pageSize
          /\ (Z.of_nat (List.length (l_data response)) <= pageSize)%Z)
  /\ concat (List.map (fun p => pageData order q db (Z.of_nat p))
               (seq 1 (Z.to_nat pages)))
     = scanInfos sorted
  /\ (forall page, (pages < page)%Z -> ((page - 1) * pageSize < two63)%Z ->
        pageData order q db page = [])
  /\ (forall page, (page < 1)%Z -> pageData order q db page = pageData order q db 1).
Proof.
  intros Hperm pageSize selected total sorted pages Hb.
  assert (Hps : (0 < pageSize)%Z) by apply normalizePageSize_pos.
  assert (Ht : (0 <= total)%Z) by (unfold total; lia).
  destruct (totalPagesOf_exact total pageSize Ht Hps Hb) as (_ & Hup & Hlow & Hp0).
  fold pages in Hup, Hlow, Hp0.
  assert (Hlen : List.length sorted = List.length selected).
  { unfold sorted. apply Permutation_length, Hperm. }
  split; [auto|]. split; [|split; [|split]].
  - intros page. eexists. split; [apply handler_page|].
    cbn [l_total l_totalPages l_page l_pageSize l_data].
    repeat split; try reflexivity.
    unfold scanInfos. rewrite List.length_map.
    pose proof (scanRows_length
                  (sqlLimitOffset (normalizePageSize (q_pageSize q))
                     (pageOffset (normalizePage page) (normalizePageSize (q_pageSize q)))
                     (order (fst (orderByClause (q_sortBy q) (q_sortDesc q)))
                        (snd (orderByClause (q_sortBy q) (q_sortDesc q)))
                        (List.filter (connectionsWhere q) db)))) as Hs.
    unfold sqlLimitOffset in *. fold pageSize in Hs |- *.
    destruct (Z.ltb_spec pageSize 0); [lia|].
    rewrite length_take in Hs. lia.
  - rewrite <- seq_shift, List.map_map.
    rewrite (List.map_ext_in _
               (fun i => scanInfos (take (Z.to_nat pageSize)
                                      (drop (i * Z.to_nat pageSize) sorted)))).
    + rewrite <- (List.map_map
                    (fun i => take (Z.to_nat pageSize)
                                (drop (i * Z.to_nat pageSize) sorted)) scanInfos).
      rewrite <- scanInfos_concat, pages_concat. f_equal.
      apply take_ge. rewrite Hlen. fold selected. nia.
    + intros i Hi. apply in_seq in Hi. rewrite pageData_eq.
      replace (normalizePage (Z.of_nat (S i))) with (Z.of_nat (S i))
        by (unfold normalizePage; destruct (Z.ltb_spec (Z.of_nat (S i)) 1); lia).
      fold pageSize selected sorted.
      rewrite sqlLimitOffset_page; [reflexivity | exact Hps |].
      unfold two63 in *. nia.
  - intros page Hpage Hbound. rewrite pageData_eq. fold pageSize selected sorted.
    replace (normalizePage page) with page
      by (unfold normalizePage; destruct (Z.ltb_spec page 1); lia).
    unfold sqlLimitOffset, pageOffset.
    rewrite wrap_int64_small by (unfold two63 in *; nia).
    rewrite drop_ge by (rewrite Hlen; fold selected; nia).
    destruct (pageSize <? 0)%Z; [reflexivity | now rewrite take_nil].
  - intros page Hpage. rewrite !pageData_eq.
    replace (normalizePage page) with 1%Z
      by (unfold normalizePage; destruct (Z.ltb_spec page 1); lia).
    reflexivity.
Qed.

Lemma connections_pages_witness :
  let order := fun (_ : SortColumn) (_ : bool) (rows : list Row) => rows in
  let q := mkListQuery 1 2 "" "" 0 0 "" false "" in
  let db := [sampleRow "1" "a.com" 1 2 3; sampleRow "2" "b.com" 4 5 6;
             sampleRow "3" "c.com" 7 8 9] in
  concat (List.map (fun p => pageData order q db (Z.of_nat p))
            (seq 1 (Z.to_nat (totalPagesOf 3 2))))
  = scanInfos db.
Proof.
  refine (proj1 (proj2 (proj2
    (connections_pages (fun _ _ rows => rows)
       (mkListQuery 1 2 "" "" 0 0 "" false "")
       [sampleRow "1" "a.com" 1 2 3; sampleRow "2" "b.com" 4 5 6;
        sampleRow "3" "c.com" 7 8 9] _ _)))).
  - intros column desc rows. reflexivity.
  - vm_compute. reflexivity.
Defined.

Section Filters.

Lemma likeMatch_only_percent (s : list ascii) : likeMatch ["%"%char] s = true.
Proof.
  induction s as [|a s IH]; [reflexivity|].
  rewrite likeMatch_percent, IH. apply orb_true_r.
Qed.

(** A pattern followed by [%] matches every string that starts with the
    pattern's own text. *)
Lemma likeMatch_prefix_self (q s : list ascii) :
  likeMatch (q ++ ["%"%char]) (q ++ s) = true.
Proof.
  induction q as [|c q IH]; [apply likeMatch_only_percent|].
  simpl app.
  destruct (Ascii.eqb_spec c "%"%char) as [-> | Hp].
  - rewrite likeMatch_percent.
    rewrite (likeMatch_percent (q ++ ["%"%char]) (q ++ s)), IH.
    apply orb_true_r.
  - destruct (Ascii.eqb_spec c "_"%char) as [-> | Hu].
    + simpl. exact IH.
    + rewrite likeMatch_literal.
      * now rewrite Ascii.eqb_refl, IH.
      * unfold isWildcard. apply orb_false_iff. split; now apply Ascii.eqb_neq.
Qed.

Lemma likeMatch_wildcardFree_prefix (q : list ascii) :
  forallb (fun c => negb (isWildcard c)) q = true ->
  forall t, likeMatch (q ++ ["%"%char]) t = true
            <-> exists t1 t2, t = t1 ++ t2
                              /\ List.map asciiLower t1 = List.map asciiLower q.
Proof.
  induction q as [|c q IH]; intros Hq t.
  - simpl app. rewrite likeMatch_only_percent. split; [|reflexivity].
    intros _. now exists [], t.
  - simpl in Hq. apply andb_true_iff in Hq as [Hc Hq].
    apply negb_true_iff in Hc. simpl app. rewrite likeMatch_literal by exact Hc.
    destruct t as [|d t].
    + split; [discriminate|]. intros (t1 & t2 & Ht & Hm).
      destruct t1; [discriminate Hm | discriminate Ht].
    + rewrite andb_true_iff, Ascii.eqb_eq, (IH Hq). split.
      * intros (Hcd & t1 & t2 & -> & Hm). exists (d :: t1), t2.
        split; [reflexivity|]. simpl. now rewrite Hcd, Hm.
      * intros (t1 & t2 & Ht & Hm). destruct t1 as [|d' t1]; [discriminate Hm|].
        simpl in Ht, Hm. injection Ht as <- ->. injection Hm as H1 H2.
        split; [now symmetry|]. now exists t1, t2.
Qed.

Lemma pattern_contains (text : string) :
  list_ascii_of_string ("%" +:+ text +:+ "%")
  = "%"%char :: (list_ascii_of_string text ++ ["%"%char]).
Proof.
  change ("%" +:+ text +:+ "%") with (String "%"%char (text +:+ "%")).
  simpl. now rewrite list_ascii_app.
Qed.

(** A string that contains the text is matched by [%text%], whatever the
    text contains. *)
Lemma like_contains (a text b : string) :
  sqlLike (a +:+ text +:+ b) ("%" +:+ text +:+ "%") = true.
Proof.
  unfold sqlLike. rewrite pattern_contains.
  rewrite (list_ascii_app a (text +:+ b)), (list_ascii_app text b).
  apply likeMatch_percent_app, likeMatch_prefix_self.
Qed.

(** For a text without wildcards [%text%] matches the strings that
    contain the text up to the case of ASCII letters. *)
Lemma like_contains_wildcardFree (s text : string) :
  wildcardFree text = true ->
  sqlLike s ("%" +:+ text +:+ "%") = true <-> containsFold s text.
Proof.
  intros Hw. unfold sqlLike, containsFold. rewrite pattern_contains. split.
  - intros (p & t & Hs & Ht)%likeMatch_percent_inv.
    apply (likeMatch_wildcardFree_prefix _ Hw) in Ht as (t1 & t2 & -> & Hm).
    exists (string_of_list_ascii p), (string_of_list_ascii t1),
           (string_of_list_ascii t2).
    split.
    + rewrite <- !string_of_list_app, <- Hs.
      now rewrite string_of_list_ascii_of_string.
    + apply lowerString_eq. now rewrite list_ascii_of_string_of_list_ascii.
  - intros (a & m & b & -> & Hm).
    rewrite (list_ascii_app a (m +:+ b)), (list_ascii_app m b).
    apply likeMatch_percent_app, (likeMatch_wildcardFree_prefix _ Hw).
    exists (list_ascii_of_string m), (list_ascii_of_string b).
    split; [reflexivity | now apply lowerString_eq].
Qed.

End Filters.

(** X15 (the filters of a listing).  For host and source-address filters
    without [%] and [_], a row is selected exactly when: the host filter
    is empty or the host contains it, up to the case of ASCII letters;
    likewise the source address; [startDate] is zero or less, or at most
    the start of the row; [endDate] is zero or less, or at least the
    start of the row; the chain filter is empty or is the chain of the
    row (a row with a NULL chain then is not selected).  Whatever the
    filters contain, a row whose host and source address contain them
    literally passes those two filters; and a request with no filter
    selects every row. *)
Theorem listing_filters (q : ListQuery) (r : Row) :
  wildcardFree (q_host q) = true -> wildcardFree (q_sourceIP q) = true ->
  (connectionsWhere q r = true
   <-> (q_host q = "" \/ containsFold (r_host r) (q_host q))
       /\ (q_sourceIP q = "" \/ containsFold (r_sourceIP r) (q_sourceIP q))
       /\ (q_startDate q <= 0 \/ q_startDate q <= r_start r)%Z
       /\ (q_endDate q <= 0 \/ r_start r <= q_endDate q)%Z
       /\ (q_chain q = "" \/ r_chain r = Some (q_chain q)))
  /\ (forall (q' : ListQuery) (a b c d : string) (r' : Row),
        r_host r' = a +:+ q_host q' +:+ b ->
        r_sourceIP r' = c +:+ q_sourceIP q' +:+ d ->
        q_startDate q' = 0%Z -> q_endDate q' = 0%Z -> q_chain q' = "" ->
        connectionsWhere q' r' = true)
  /\ (forall page pageSize sortBy sortDesc r',
        connectionsWhere
          (mkListQuery page pageSize "" "" 0 0 sortBy sortDesc "") r' = true).
Proof.
  intros Hh Hs. split; [|split].
  - unfold connectionsWhere.
    rewrite !andb_true_iff, !orb_true_iff, !String.eqb_eq, !Z.leb_le.
    rewrite (like_contains_wildcardFree _ _ Hh), (like_contains_wildcardFree _ _ Hs).
    assert (Hc : match r_chain r with
                 | Some chain => (chain =? q_chain q)%string
                 | None => false
                 end = true <-> r_chain r = Some (q_chain q)).
    { destruct (r_chain r) as [ch|].
      - rewrite String.eqb_eq. split; congruence.
      - split; discriminate. }
    rewrite Hc. tauto.
  - intros q' a b c d r' Hhost Hip Hsd Hed Hch. unfold connectionsWhere.
    rewrite Hhost, Hip, Hsd, Hed, Hch, !like_contains. simpl.
    now rewrite !orb_true_r.
  - intros. reflexivity.
Qed.

Lemma listing_filters_witness :
  connectionsWhere (mkListQuery 1 20 "Example" "" 5 0 "" false "proxy-a")
    (sampleRow "1" "v1.example.com" 1 2 7) = true
  <-> ("Example" = "" \/ containsFold "v1.example.com" "Example")
      /\ ("" = "" \/ containsFold "192.168.2.95" "")
      /\ (5 <= 0 \/ 5 <= 7)%Z
      /\ (0 <= 0 \/ 7 <= 0)%Z
      /\ ("proxy-a" = "" \/ Some "proxy-a" = Some "proxy-a").
Proof.
  exact (proj1 (listing_filters
                  (mkListQuery 1 20 "Example" "" 5 0 "" false "proxy-a")
                  (sampleRow "1" "v1.example.com" 1 2 7) eq_refl eq_refl)).
Defined.

(* ===================================================================== *)
(** * The merge request                                                   *)
(* ===================================================================== *)

